(** * kudu::faststring (src/util/faststring.h)

    A shallow embedding of the byte buffer [faststring] and the proofs of
    its specified properties.

    Data model.
    - [size_t] is a 64-bit unsigned integer, [int] a 32-bit signed one,
      [uint8_t] an 8-bit unsigned one.  All three are carried by [Z]; every
      arithmetic operation of the source that can leave the range is followed
      by the conversion the compiler performs ([to_size_t], [to_int],
      [to_uint8]).
    - An array of bytes is a [block]: a function from the offset to the byte
      stored there.  Offsets are pointer differences and are not reduced.
    - The pointer [data_] either aliases the embedded array [initial_data_]
      or designates a heap array.  The record keeps both arrays, so that
      writing through [data_] while inline is writing [initial_data_].
    - [new uint8_t[n]] returns an array of unspecified contents.  Every
      operation that may allocate takes these contents as its first argument
      [fresh]; the theorems hold for all of them.  Allocation never fails. *)

From Stdlib Require Import ZArith List Bool Lia.
Import ListNotations.
Local Open Scope Z_scope.

Module FastString.

(** ** Machine integers *)

Definition SIZE_MAX : Z := 18446744073709551615.            (* 2^64 - 1 *)
Definition INT_MAX : Z := 2147483647.                       (* 2^31 - 1 *)

(** Conversion to [size_t]: reduction modulo 2^64. *)
Definition to_size_t (x : Z) : Z := x mod (SIZE_MAX + 1).

(** Conversion to [int]: the two's complement value of the low 32 bits. *)
Definition to_int (x : Z) : Z :=
  (x + (INT_MAX + 1)) mod (2 * (INT_MAX + 1)) - (INT_MAX + 1).

(** Conversion to [uint8_t]: reduction modulo 256. *)
Definition to_uint8 (x : Z) : Z := x mod 256.

Definition is_size_t (x : Z) : Prop := 0 <= x <= SIZE_MAX.
Definition is_uint8 (x : Z) : Prop := 0 <= x <= 255.

(** ** Arrays of bytes *)

Definition block : Type := Z -> Z.

(** [b[i] = v] *)
Definition store (b : block) (i v : Z) : block :=
  fun j => if j =? i then v else b j.

(** [memcpy(&dst[off], src, n)] *)
Definition memcpy (dst : block) (off : Z) (src : block) (n : Z) : block :=
  fun j => if (off <=? j) && (j <? off + n) then src (j - off) else dst j.

(** The [n] bytes starting at offset 0, as a list. *)
Definition bytes (b : block) (n : Z) : list Z :=
  map (fun i => b (Z.of_nat i)) (seq 0 (Z.to_nat n)).

(** The array whose first bytes are those of [l]. *)
Definition block_of_list (l : list Z) : block :=
  fun i => nth (Z.to_nat i) l 0.

(** ** The buffer *)

Definition kInitialCapacity : Z := 32.

Record faststring : Type := mk_faststring {
  initial_data_ : block;          (* uint8_t initial_data_[kInitialCapacity] *)
  heap_data_ : option block;      (* the heap array data_ designates; None when
                                     data_ == initial_data_ *)
  len_ : Z;                       (* size_t len_ *)
  capacity_ : Z                   (* size_t capacity_ *)
}.

(** The array [data_] points to. *)
Definition data_ (s : faststring) : block :=
  match heap_data_ s with
  | Some h => h
  | None => initial_data_ s
  end.

(** [data_ == initial_data_] *)
Definition is_inline (s : faststring) : bool :=
  match heap_data_ s with
  | Some _ => false
  | None => true
  end.

(** Replace the contents of the array [data_] points to. *)
Definition set_data_ (s : faststring) (d : block) : faststring :=
  match heap_data_ s with
  | Some _ => mk_faststring (initial_data_ s) (Some d) (len_ s) (capacity_ s)
  | None => mk_faststring d None (len_ s) (capacity_ s)
  end.

Definition set_len_ (s : faststring) (n : Z) : faststring :=
  mk_faststring (initial_data_ s) (heap_data_ s) n (capacity_ s).

(** [faststring()]; [init] is the unspecified content of [initial_data_]. *)
Definition faststring_default (init : block) : faststring :=
  mk_faststring init None 0 kInitialCapacity.

(** [explicit faststring(size_t capacity)] *)
Definition faststring_with_capacity (init fresh : block) (capacity : Z)
  : faststring :=
  let s := mk_faststring init None 0 kInitialCapacity in
  if capacity >? capacity_ s
  then mk_faststring init (Some fresh) 0 capacity
  else s.

(** Modelled from the spec: [faststring::GrowArray] is declared in
    faststring.h and defined in faststring.cc, which is missing.  Spec 4.1,
    reserve: "allocate a new array of exactly newCapacity bytes, copy the
    first length valid bytes from the old storage into it, release old heap
    storage if it was heap-allocated (inline storage is never freed, only
    abandoned), and adopt the new array with capacity = newCapacity". *)
Definition GrowArray (fresh : block) (newcapacity : Z) (s : faststring)
  : faststring :=
  mk_faststring (initial_data_ s)
                (Some (memcpy fresh 0 (data_ s) (len_ s)))
                (len_ s)
                newcapacity.

(** Modelled from the spec: [faststring::GrowByAtLeast] is declared in
    faststring.h and defined in faststring.cc, which is missing.  Spec 4.1,
    growth policy: "when appending count bytes and length + count >
    capacity, grow to max(length + count, capacity + capacity/2)".  The
    header says the same: "Grows the buffer by either 'count' bytes, or 50%,
    whichever is more".  Both sums are [size_t] sums. *)
Definition GrowByAtLeast (fresh : block) (count : Z) (s : faststring)
  : faststring :=
  let to_reserve :=
    Z.max (to_size_t (len_ s + count))
          (to_size_t (capacity_ s + capacity_ s / 2)) in
  GrowArray fresh to_reserve s.

Definition reserve (fresh : block) (newcapacity : Z) (s : faststring)
  : faststring :=
  if newcapacity <=? capacity_ s then s
  else GrowArray fresh newcapacity s.

Definition resize (fresh : block) (newsize : Z) (s : faststring)
  : faststring :=
  let s1 := if newsize >? capacity_ s then reserve fresh newsize s else s in
  set_len_ s1 newsize.

Definition clear (fresh : block) (s : faststring) : faststring :=
  resize fresh 0 s.

(** [release()]: the returned array and the buffer afterwards. *)
Definition release (fresh : block) (s : faststring) : block * faststring :=
  let ret :=
    if is_inline s
    then memcpy fresh 0 (data_ s) (len_ s)   (* new uint8_t[len_]; memcpy *)
    else data_ s in
  (ret, mk_faststring (initial_data_ s) None 0 kInitialCapacity).

Definition EnsureRoomForAppend (fresh : block) (count : Z) (s : faststring)
  : faststring :=
  if to_size_t (len_ s + count) <=? capacity_ s then s
  else GrowByAtLeast fresh count s.

(** [for (int i = 0; i < count; i++) *p++ = *src++;] with [n] iterations
    left, [p] and [q] the offsets of the two moving pointers. *)
Fixpoint copy_bytes (n : nat) (d : block) (p : Z) (src : block) (q : Z)
  : block :=
  match n with
  | O => d
  | S n' => copy_bytes n' (store d p (src q)) (p + 1) src (q + 1)
  end.

(** [append(const void *src_v, size_t count)] *)
Definition append (fresh src : block) (count : Z) (s : faststring)
  : faststring :=
  let s1 := EnsureRoomForAppend fresh count s in
  let d :=
    if count <=? 4
    then copy_bytes (Z.to_nat count) (data_ s1) (len_ s1) src 0
    else memcpy (data_ s1) (len_ s1) src count   (* strings::memcpy_inlined *)
  in
  set_len_ (set_data_ s1 d) (to_size_t (len_ s1 + count)).

(** [push_back(const char byte)] *)
Definition push_back (fresh : block) (byte : Z) (s : faststring)
  : faststring :=
  let s1 := EnsureRoomForAppend fresh 1 s in
  let s2 := set_data_ s1 (store (data_ s1) (len_ s1) (to_uint8 byte)) in
  set_len_ s2 (to_size_t (len_ s2 + 1)).

Definition length (s : faststring) : Z := len_ s.
Definition size (s : faststring) : Z := len_ s.
Definition capacity (s : faststring) : Z := capacity_ s.
Definition data (s : faststring) : block := data_ s.

(** [assign_copy(const uint8_t *src, size_t len)] *)
Definition assign_copy (fresh src : block) (len : Z) (s : faststring)
  : faststring :=
  let s1 := set_len_ s 0 in
  let s2 := resize fresh len s1 in
  set_data_ s2 (memcpy (data s2) 0 src len).

(** [ToString()] *)
Definition ToString (s : faststring) : list Z := bytes (data s) (len_ s).

(** The [while] loop of [AdvanceToSuccessor], run for at most [fuel]
    evaluations of its condition; the result is the state of the loop:
    [done], [index] and the buffer.  In [resize(index+1)] the sum is an
    [int] sum converted to [size_t]. *)
Fixpoint AdvanceToSuccessor_loop (fuel : nat) (fresh : block) (done : bool)
  (index : Z) (s : faststring) : bool * Z * faststring :=
  match fuel with
  | O => (done, index, s)
  | S fuel' =>
    if negb done && (index >=? 0) then
      if data_ s index =? 255 then
        AdvanceToSuccessor_loop fuel' fresh done (to_int (index - 1)) s
      else
        let s1 :=
          set_data_ s (store (data_ s) index (to_uint8 (data_ s index + 1))) in
        let s2 := resize fresh (to_size_t (to_int (index + 1))) s1 in
        AdvanceToSuccessor_loop fuel' fresh true index s2
    else (done, index, s)
  end.

(** [int index = len_ - 1;] *)
Definition AdvanceToSuccessor_index (s : faststring) : Z :=
  to_int (to_size_t (len_ s - 1)).

(** [AdvanceToSuccessor()]: the returned flag and the buffer afterwards.
    [index] decreases at every iteration that does not set [done], so
    [index + 1] evaluations of the condition reach the end of the loop
    ([AdvanceToSuccessor_loop_exit] below). *)
Definition AdvanceToSuccessor (fresh : block) (s : faststring)
  : bool * faststring :=
  let index := AdvanceToSuccessor_index s in
  let '(done, _, s') :=
    AdvanceToSuccessor_loop (Z.to_nat (index + 1)) fresh false index s in
  (done, s').

(** ** Sequences of operations *)

Inductive op : Type :=
| OpClear (fresh : block)
| OpResize (fresh : block) (newsize : Z)
| OpReserve (fresh : block) (newcapacity : Z)
| OpAppend (fresh src : block) (count : Z)
| OpPushBack (fresh : block) (byte : Z)
| OpAssignCopy (fresh src : block) (len : Z)
| OpRelease (fresh : block)
| OpAdvanceToSuccessor (fresh : block).

(** The arguments of type [size_t] are values of that type. *)
Definition op_ok (o : op) : Prop :=
  match o with
  | OpResize _ n | OpReserve _ n | OpAppend _ _ n | OpAssignCopy _ _ n =>
      is_size_t n
  | _ => True
  end.

Definition is_release (o : op) : bool :=
  match o with
  | OpRelease _ => true
  | _ => false
  end.

Definition step (o : op) (s : faststring) : faststring :=
  match o with
  | OpClear fresh => clear fresh s
  | OpResize fresh n => resize fresh n s
  | OpReserve fresh n => reserve fresh n s
  | OpAppend fresh src n => append fresh src n s
  | OpPushBack fresh b => push_back fresh b s
  | OpAssignCopy fresh src n => assign_copy fresh src n s
  | OpRelease fresh => snd (release fresh s)
  | OpAdvanceToSuccessor fresh => snd (AdvanceToSuccessor fresh s)
  end.

Definition run (ops : list op) (s : faststring) : faststring :=
  fold_left (fun s o => step o s) ops s.

(** The states a buffer can be in: those produced by a constructor and
    those produced by an operation from such a state. *)
Inductive reachable : faststring -> Prop :=
| reachable_default init :
    reachable (faststring_default init)
| reachable_with_capacity init fresh capacity :
    is_size_t capacity ->
    reachable (faststring_with_capacity init fresh capacity)
| reachable_step o s :
    reachable s -> op_ok o -> reachable (step o s).

(** ** Predicates used in the statements *)

(** The class invariant asserted by the data model. *)
Definition invariant (s : faststring) : Prop :=
  0 <= len_ s <= capacity_ s /\ kInitialCapacity <= capacity_ s.

(** Every byte of the [n] first ones is a [uint8_t] value. *)
Definition all_uint8 (b : block) (n : Z) : Prop :=
  forall i, 0 <= i < n -> is_uint8 (b i).

(** The appended byte sequences of a list of [append] calls, and the sum
    of their counts. *)
Definition append_call : Type := (block * block * Z)%type.

Definition appended (calls : list append_call) : list Z :=
  concat (map (fun '(_, src, count) => bytes src count) calls).

Definition total_count (calls : list append_call) : Z :=
  fold_right (fun '(_, _, count) acc => count + acc) 0 calls.

Definition appends (calls : list append_call) (s : faststring) : faststring :=
  fold_left (fun s '(fresh, src, count) => append fresh src count s) calls s.

(** Byte-wise lexicographic order on byte strings. *)
Inductive lex_lt : list Z -> list Z -> Prop :=
| lex_lt_nil y ys : lex_lt [] (y :: ys)
| lex_lt_head x y xs ys : x < y -> lex_lt (x :: xs) (y :: ys)
| lex_lt_tail x xs ys : lex_lt xs ys -> lex_lt (x :: xs) (x :: ys).

Definition lex_le (xs ys : list Z) : Prop := xs = ys \/ lex_lt xs ys.

(** The successor as the spec words it: "all trailing 0xFF bytes are
    dropped, the last non-0xFF byte is incremented by one, and the length is
    truncated to end right after that byte"; [None] when the string is empty
    or made of 0xFF bytes only.  Written on the reversed string. *)
Fixpoint successor_rev (r : list Z) : option (list Z) :=
  match r with
  | [] => None
  | x :: r' => if x =? 255 then successor_rev r' else Some ((x + 1) :: r')
  end.

Definition successor (l : list Z) : option (list Z) :=
  option_map (@rev Z) (successor_rev (rev l)).

(** An array of zero bytes, for the concrete instances. *)
Definition zeros : block := fun _ => 0.

(** A buffer holding 2^31 + 1 zero bytes: a default-constructed buffer
    after [assign_copy] from an array of zeros. *)
Definition large_buffer : faststring :=
  assign_copy zeros zeros (INT_MAX + 2) (faststring_default zeros).

(** A buffer holding the bytes of [l], built with the public interface. *)
Definition of_bytes (l : list Z) : faststring :=
  assign_copy zeros (block_of_list l) (Z.of_nat (List.length l))
              (faststring_default zeros).

(** ** The remaining members of the interface *)

(** [append(const std::string &str)]: [append(str.data(), str.size())]; the
    string is the list of its bytes. *)
Definition append_string (fresh : block) (str : list Z) (s : faststring)
  : faststring :=
  append fresh (block_of_list str) (Z.of_nat (List.length str)) s.

(** [assign_copy(const std::string &str)]:
    [assign_copy(str.c_str(), str.size())]. *)
Definition assign_copy_string (fresh : block) (str : list Z) (s : faststring)
  : faststring :=
  assign_copy fresh (block_of_list str) (Z.of_nat (List.length str)) s.

(** [at(size_t i)] and [operator[](size_t i)], read: [data_[i]], without
    any bounds check. *)
Definition at_ (s : faststring) (i : Z) : Z := data_ s i.

(** A run of [push_back] calls, one per byte. *)
Definition push_backs (l : list (block * Z)) (s : faststring) : faststring :=
  fold_left (fun s '(fresh, byte) => push_back fresh byte s) l s.

(** The storage invariant: [data_ == initial_data_] exactly when the
    capacity is that of the embedded array. *)
Definition storage_invariant (s : faststring) : Prop :=
  is_inline s = true <-> capacity_ s = kInitialCapacity.

(** The sum formed by [append] does not wrap around: the [count] bytes
    of the source exist beside the [len_] bytes of the buffer. *)
Definition op_fits (o : op) (s : faststring) : Prop :=
  match o with
  | OpAppend _ _ count => is_size_t (len_ s + count)
  | _ => True
  end.

(** * Proofs *)

(** ** Machine integers *)

Lemma to_size_t_range x : is_size_t (to_size_t x).
Proof.
  unfold is_size_t, to_size_t, SIZE_MAX.
  pose proof (Z.mod_pos_bound x (18446744073709551615 + 1)). lia.
Qed.

Lemma to_size_t_small x : is_size_t x -> to_size_t x = x.
Proof.
  unfold is_size_t, to_size_t, SIZE_MAX. intros H.
  apply Z.mod_small. lia.
Qed.

Lemma to_int_range x : - INT_MAX - 1 <= to_int x <= INT_MAX.
Proof.
  unfold to_int, INT_MAX.
  pose proof (Z.mod_pos_bound (x + (2147483647 + 1)) (2 * (2147483647 + 1))).
  lia.
Qed.

Lemma to_int_small x : - INT_MAX - 1 <= x <= INT_MAX -> to_int x = x.
Proof.
  unfold to_int, INT_MAX. intros H.
  rewrite Z.mod_small; lia.
Qed.

Lemma to_uint8_small x : is_uint8 x -> to_uint8 x = x.
Proof. unfold is_uint8, to_uint8. intros H. apply Z.mod_small. lia. Qed.

(** ** Arrays *)

Lemma store_same b i v : store b i v i = v.
Proof. unfold store. now rewrite Z.eqb_refl. Qed.

Lemma store_other b i v j : j <> i -> store b i v j = b j.
Proof. unfold store. intros H. now apply Z.eqb_neq in H as ->. Qed.

Lemma memcpy_inside dst off src n j :
  off <= j < off + n -> memcpy dst off src n j = src (j - off).
Proof.
  unfold memcpy. intros H.
  destruct (Z.leb_spec off j); destruct (Z.ltb_spec j (off + n)); simpl;
    try lia; reflexivity.
Qed.

Lemma memcpy_outside dst off src n j :
  j < off \/ off + n <= j -> memcpy dst off src n j = dst j.
Proof.
  unfold memcpy. intros H.
  destruct (Z.leb_spec off j); destruct (Z.ltb_spec j (off + n)); simpl;
    try lia; reflexivity.
Qed.

Lemma bytes_length b n : List.length (bytes b n) = Z.to_nat n.
Proof. unfold bytes. now rewrite length_map, length_seq. Qed.

Lemma bytes_ext b b' n :
  (forall i, 0 <= i < n -> b i = b' i) -> bytes b n = bytes b' n.
Proof.
  intros H. unfold bytes. apply map_ext_in.
  intros i Hi. apply in_seq in Hi. apply H. lia.
Qed.

Lemma bytes_nth b n i d :
  (i < Z.to_nat n)%nat -> nth i (bytes b n) d = b (Z.of_nat i).
Proof.
  intros H. unfold bytes.
  rewrite (nth_indep _ d (b (Z.of_nat 0))) by now rewrite length_map, length_seq.
  rewrite (map_nth (fun i => b (Z.of_nat i))), seq_nth by assumption.
  reflexivity.
Qed.

Lemma bytes_app b n m :
  0 <= n -> 0 <= m ->
  bytes b (n + m) = bytes b n ++ bytes (fun i => b (n + i)) m.
Proof.
  intros Hn Hm. apply (nth_ext _ _ 0 0).
  - rewrite length_app, !bytes_length. lia.
  - intros i Hi. rewrite bytes_length in Hi.
    rewrite bytes_nth by assumption.
    destruct (Nat.lt_ge_cases i (Z.to_nat n)) as [Hlt|Hge].
    + rewrite app_nth1 by now rewrite bytes_length.
      now rewrite bytes_nth.
    + rewrite app_nth2; rewrite bytes_length; [|assumption].
      rewrite bytes_nth by lia. f_equal. lia.
Qed.

Lemma bytes_block_of_list l :
  bytes (block_of_list l) (Z.of_nat (List.length l)) = l.
Proof.
  apply (nth_ext _ _ 0 0).
  - now rewrite bytes_length, Nat2Z.id.
  - intros i Hi. rewrite bytes_length in Hi.
    rewrite bytes_nth by assumption.
    unfold block_of_list. now rewrite Nat2Z.id.
Qed.

Lemma copy_bytes_spec n : forall d p src q j,
  copy_bytes n d p src q j =
  if (p <=? j) && (j <? p + Z.of_nat n) then src (q + (j - p)) else d j.
Proof.
  induction n as [|n IH]; intros d p src q j.
  - simpl. destruct (Z.leb_spec p j); destruct (Z.ltb_spec j (p + 0));
      simpl; try reflexivity; lia.
  - cbn [copy_bytes]. rewrite IH. unfold store.
    destruct (Z.leb_spec (p + 1) j); destruct (Z.ltb_spec j (p + 1 + Z.of_nat n));
      destruct (Z.leb_spec p j); destruct (Z.ltb_spec j (p + Z.of_nat (S n)));
      destruct (Z.eqb_spec j p); simpl; try lia; try reflexivity.
    + f_equal. lia.
    + subst j. f_equal. lia.
Qed.

(** The byte-by-byte loop and the bulk copy of [append] write the same
    array. *)
Lemma copy_bytes_memcpy d p src count j :
  copy_bytes (Z.to_nat count) d p src 0 j = memcpy d p src count j.
Proof.
  rewrite copy_bytes_spec. unfold memcpy.
  destruct (Z.leb_spec p j); destruct (Z.ltb_spec j (p + Z.of_nat (Z.to_nat count)));
    destruct (Z.ltb_spec j (p + count)); simpl; try lia; reflexivity.
Qed.

(** ** Capacity and length through the operations *)

Lemma set_data__len s d : len_ (set_data_ s d) = len_ s.
Proof. unfold set_data_. now destruct (heap_data_ s). Qed.

Lemma set_data__capacity s d : capacity_ (set_data_ s d) = capacity_ s.
Proof. unfold set_data_. now destruct (heap_data_ s). Qed.

Lemma set_data__data s d : data_ (set_data_ s d) = d.
Proof. unfold set_data_, data_. now destruct (heap_data_ s). Qed.

Lemma set_len__data s n : data_ (set_len_ s n) = data_ s.
Proof. reflexivity. Qed.

Lemma set_data__is_inline s d : is_inline (set_data_ s d) = is_inline s.
Proof. unfold set_data_, is_inline. now destruct (heap_data_ s). Qed.

Lemma reserve_len fresh n s : len_ (reserve fresh n s) = len_ s.
Proof. unfold reserve. now destruct (n <=? capacity_ s). Qed.

Lemma reserve_capacity fresh n s :
  capacity_ (reserve fresh n s) = Z.max n (capacity_ s).
Proof.
  unfold reserve. destruct (Z.leb_spec n (capacity_ s)); simpl; lia.
Qed.

Lemma resize_len fresh n s : len_ (resize fresh n s) = n.
Proof. reflexivity. Qed.

Lemma resize_capacity fresh n s :
  capacity_ (resize fresh n s) = Z.max n (capacity_ s).
Proof.
  unfold resize. destruct (Z.gtb_spec n (capacity_ s)); simpl.
  - apply reserve_capacity.
  - lia.
Qed.

Lemma EnsureRoomForAppend_len fresh count s :
  len_ (EnsureRoomForAppend fresh count s) = len_ s.
Proof.
  unfold EnsureRoomForAppend.
  now destruct (to_size_t (len_ s + count) <=? capacity_ s).
Qed.

(** After [EnsureRoomForAppend(count)] there is room for [count] more
    bytes, and the capacity has not decreased. *)
Lemma EnsureRoomForAppend_capacity fresh count s :
  to_size_t (len_ s + count) <= capacity_ (EnsureRoomForAppend fresh count s)
  /\ capacity_ s <= capacity_ (EnsureRoomForAppend fresh count s).
Proof.
  unfold EnsureRoomForAppend.
  destruct (Z.leb_spec (to_size_t (len_ s + count)) (capacity_ s)).
  - lia.
  - unfold GrowByAtLeast, GrowArray. simpl. lia.
Qed.

Lemma append_len fresh src count s :
  len_ (append fresh src count s) = to_size_t (len_ s + count).
Proof.
  unfold append. simpl. now rewrite EnsureRoomForAppend_len.
Qed.

Lemma append_capacity fresh src count s :
  capacity_ (append fresh src count s) =
  capacity_ (EnsureRoomForAppend fresh count s).
Proof. unfold append. simpl. now rewrite set_data__capacity. Qed.

Lemma push_back_len fresh byte s :
  len_ (push_back fresh byte s) = to_size_t (len_ s + 1).
Proof.
  unfold push_back. simpl.
  now rewrite set_data__len, EnsureRoomForAppend_len.
Qed.

Lemma push_back_capacity fresh byte s :
  capacity_ (push_back fresh byte s) =
  capacity_ (EnsureRoomForAppend fresh 1 s).
Proof. unfold push_back. simpl. now rewrite set_data__capacity. Qed.

Lemma assign_copy_len fresh src len s :
  len_ (assign_copy fresh src len s) = len.
Proof. unfold assign_copy. now rewrite set_data__len. Qed.

Lemma assign_copy_capacity fresh src len s :
  capacity_ (assign_copy fresh src len s) = Z.max len (capacity_ s).
Proof.
  unfold assign_copy. now rewrite set_data__capacity, resize_capacity.
Qed.

(** What the loop of [AdvanceToSuccessor] keeps: any property of the
    buffer that [resize] to a [size_t] value and a write through [data_]
    both keep. *)
Lemma AdvanceToSuccessor_loop_keeps (P : faststring -> Prop) fresh :
  (forall s d, P s -> P (set_data_ s d)) ->
  (forall s n, is_size_t n -> P s -> P (resize fresh n s)) ->
  forall fuel done index s,
    P s -> P (snd (AdvanceToSuccessor_loop fuel fresh done index s)).
Proof.
  intros Hd Hr fuel. induction fuel as [|fuel IH]; intros done index s Hs.
  - exact Hs.
  - cbn [AdvanceToSuccessor_loop].
    destruct (negb done && (index >=? 0)); [|exact Hs].
    destruct (data_ s index =? 255).
    + now apply IH.
    + apply IH, Hr; [apply to_size_t_range|]. now apply Hd.
Qed.

Lemma AdvanceToSuccessor_snd fresh s :
  snd (AdvanceToSuccessor fresh s) =
  snd (AdvanceToSuccessor_loop (Z.to_nat (AdvanceToSuccessor_index s + 1))
         fresh false (AdvanceToSuccessor_index s) s).
Proof.
  unfold AdvanceToSuccessor.
  now destruct (AdvanceToSuccessor_loop _ _ _ _ _) as [[? ?] ?].
Qed.

Lemma AdvanceToSuccessor_fst fresh s :
  fst (AdvanceToSuccessor fresh s) =
  fst (fst (AdvanceToSuccessor_loop
              (Z.to_nat (AdvanceToSuccessor_index s + 1))
              fresh false (AdvanceToSuccessor_index s) s)).
Proof.
  unfold AdvanceToSuccessor.
  now destruct (AdvanceToSuccessor_loop _ _ _ _ _) as [[? ?] ?].
Qed.

Lemma step_capacity_not_release o s :
  is_release o = false -> capacity_ s <= capacity_ (step o s).
Proof.
  destruct o; cbn [step is_release snd]; intros Hrel; try discriminate.
  - unfold clear. rewrite resize_capacity. lia.
  - rewrite resize_capacity. lia.
  - rewrite reserve_capacity. lia.
  - rewrite append_capacity. apply EnsureRoomForAppend_capacity.
  - rewrite push_back_capacity. apply EnsureRoomForAppend_capacity.
  - rewrite assign_copy_capacity. lia.
  - rewrite AdvanceToSuccessor_snd.
    apply (AdvanceToSuccessor_loop_keeps
             (fun t => capacity_ s <= capacity_ t)); try lia.
    + intros t d. now rewrite set_data__capacity.
    + intros t n _. rewrite resize_capacity. lia.
Qed.

Lemma step_invariant o s : op_ok o -> invariant s -> invariant (step o s).
Proof.
  unfold invariant.
  destruct o; cbn [step op_ok]; unfold is_size_t; intros Hok [Hlen Hcap].
  - unfold clear. rewrite resize_len, resize_capacity. lia.
  - rewrite resize_len, resize_capacity. lia.
  - rewrite reserve_len, reserve_capacity. lia.
  - rewrite append_len, append_capacity.
    pose proof (EnsureRoomForAppend_capacity fresh count s).
    pose proof (to_size_t_range (len_ s + count)) as Hr.
    unfold is_size_t in Hr. lia.
  - rewrite push_back_len, push_back_capacity.
    pose proof (EnsureRoomForAppend_capacity fresh 1 s).
    pose proof (to_size_t_range (len_ s + 1)) as Hr.
    unfold is_size_t in Hr. lia.
  - rewrite assign_copy_len, assign_copy_capacity. lia.
  - simpl. unfold kInitialCapacity. lia.
  - rewrite AdvanceToSuccessor_snd.
    apply (AdvanceToSuccessor_loop_keeps
             (fun t => 0 <= len_ t <= capacity_ t /\
                       kInitialCapacity <= capacity_ t)); [| |lia].
    + intros t d. now rewrite set_data__len, set_data__capacity.
    + intros t n Hn. unfold is_size_t in Hn.
      rewrite resize_len, resize_capacity. lia.
Qed.

(** ** The class invariant (C9) *)

(** C9. Every buffer state reachable from a constructor by any sequence of
    operations (clear, resize, reserve, append, push_back, assign_copy,
    release, AdvanceToSuccessor) satisfies [0 <= length <= capacity] and
    [capacity >= kInitialCapacity]. *)
Theorem reachable_invariant s :
  reachable s ->
  0 <= len_ s <= capacity_ s /\ kInitialCapacity <= capacity_ s.
Proof.
  intros H. change (invariant s). induction H as [init|init fresh c Hc|o s H IH Hok].
  - unfold invariant. simpl. unfold kInitialCapacity. lia.
  - unfold invariant, faststring_with_capacity. cbn [capacity_].
    destruct (Z.gtb_spec c kInitialCapacity); unfold kInitialCapacity in *;
      simpl; lia.
  - now apply step_invariant.
Qed.

Lemma reachable_invariant_witness :
  reachable (step (OpPushBack zeros 7) (faststring_default zeros)) /\
  (0 <= len_ (step (OpPushBack zeros 7) (faststring_default zeros))
     <= capacity_ (step (OpPushBack zeros 7) (faststring_default zeros)) /\
   kInitialCapacity
     <= capacity_ (step (OpPushBack zeros 7) (faststring_default zeros))).
Proof.
  assert (Hr : reachable (step (OpPushBack zeros 7) (faststring_default zeros))).
  { apply reachable_step; [apply reachable_default | exact I]. }
  split; [exact Hr | exact (reachable_invariant _ Hr)].
Defined.

(** ** Capacity across operations (C4) *)

(** C4, as stated, fails: [release()] on a buffer built with capacity 100
    leaves it with capacity [kInitialCapacity = 32]. *)
Lemma release_lowers_capacity :
  ~ (forall o s, reachable s -> op_ok o ->
                 capacity_ s <= capacity_ (step o s)).
Proof.
  intros H.
  specialize (H (OpRelease zeros) (faststring_with_capacity zeros zeros 100)).
  assert (Hr : reachable (faststring_with_capacity zeros zeros 100)).
  { apply reachable_with_capacity. unfold is_size_t, SIZE_MAX. lia. }
  specialize (H Hr I). vm_compute in H. apply H. reflexivity.
Qed.

(** C4, amended.  Every operation other than [release] (clear, resize,
    reserve, append, push_back, assign_copy, AdvanceToSuccessor) leaves a
    capacity greater than or equal to the capacity before it; [release]
    sets the capacity to [kInitialCapacity]. *)
Theorem capacity_monotone_except_release o s :
  (is_release o = false -> capacity_ s <= capacity_ (step o s)) /\
  (is_release o = true -> capacity_ (step o s) = kInitialCapacity).
Proof.
  split.
  - apply step_capacity_not_release.
  - destruct o; simpl; intros H; try discriminate. reflexivity.
Qed.

Lemma capacity_monotone_except_release_witness :
  (is_release (OpReserve zeros 100) = false /\
   capacity_ (faststring_default zeros)
     <= capacity_ (step (OpReserve zeros 100) (faststring_default zeros))) /\
  (is_release (OpRelease zeros) = true /\
   capacity_ (step (OpRelease zeros) (faststring_with_capacity zeros zeros 100))
     = kInitialCapacity).
Proof.
  split; (split; [reflexivity|]).
  - apply (proj1 (capacity_monotone_except_release
                    (OpReserve zeros 100) (faststring_default zeros))).
    reflexivity.
  - apply (proj2 (capacity_monotone_except_release
                    (OpRelease zeros)
                    (faststring_with_capacity zeros zeros 100))).
    reflexivity.
Defined.

(** ** reserve and resize (C6, C3) *)

Lemma GrowArray_data fresh n s i :
  0 <= i < len_ s -> data_ (GrowArray fresh n s) i = data_ s i.
Proof.
  intros H. unfold GrowArray, data_ at 1. simpl.
  rewrite memcpy_inside by lia. f_equal. lia.
Qed.

Lemma GrowArray_fresh fresh n s i :
  len_ s <= i -> data_ (GrowArray fresh n s) i = fresh i.
Proof.
  intros H. unfold GrowArray, data_ at 1. simpl.
  apply memcpy_outside. lia.
Qed.

(** C6. For [n] greater than the capacity, after [reserve(n)] the capacity
    is exactly [n], and the length and the first [length] bytes are
    unchanged; for [n] less than or equal to the capacity, [reserve(n)]
    leaves the whole buffer unchanged. *)
Theorem reserve_spec fresh n s :
  (capacity_ s < n ->
   capacity_ (reserve fresh n s) = n /\
   len_ (reserve fresh n s) = len_ s /\
   (forall i, 0 <= i < len_ s -> data_ (reserve fresh n s) i = data_ s i) /\
   ToString (reserve fresh n s) = ToString s) /\
  (n <= capacity_ s -> reserve fresh n s = s).
Proof.
  unfold reserve. split; intros H.
  - destruct (Z.leb_spec n (capacity_ s)); [lia|].
    repeat split.
    + intros i Hi. now apply GrowArray_data.
    + unfold ToString, data. apply bytes_ext. intros i Hi.
      now apply GrowArray_data.
  - destruct (Z.leb_spec n (capacity_ s)); [reflexivity|lia].
Qed.

Lemma reserve_spec_witness :
  (capacity_ (of_bytes [1; 2; 3]) < 100 /\
   capacity_ (reserve zeros 100 (of_bytes [1; 2; 3])) = 100 /\
   ToString (reserve zeros 100 (of_bytes [1; 2; 3])) = [1; 2; 3]) /\
  (20 <= capacity_ (of_bytes [1; 2; 3]) /\
   reserve zeros 20 (of_bytes [1; 2; 3]) = of_bytes [1; 2; 3]).
Proof.
  pose proof (reserve_spec zeros 100 (of_bytes [1; 2; 3])) as [Hgrow _].
  pose proof (reserve_spec zeros 20 (of_bytes [1; 2; 3])) as [_ Hnoop].
  assert (H1 : capacity_ (of_bytes [1; 2; 3]) < 100) by reflexivity.
  assert (H2 : 20 <= capacity_ (of_bytes [1; 2; 3])) by (vm_compute; discriminate).
  destruct (Hgrow H1) as (Hc & _ & _ & Hs).
  split; [split; [exact H1 | split; [exact Hc | exact Hs]]
         | split; [exact H2 | exact (Hnoop H2)]].
Defined.

(** C3, as stated, fails: [resize(33)] on a default-constructed buffer
    (capacity 32) leaves capacity 33, below [32 + 32/2 = 48]. *)
Lemma resize_not_geometric :
  ~ (forall fresh n s,
       reachable s -> is_size_t n -> capacity_ s < n ->
       Z.max n (capacity_ s + capacity_ s / 2)
         <= capacity_ (resize fresh n s)).
Proof.
  intros H.
  specialize (H zeros 33 (faststring_default zeros)
                (reachable_default zeros)).
  vm_compute in H.
  apply H; try reflexivity. split; discriminate.
Qed.

(** C3, amended.  For [newLength] greater than the capacity,
    [resize(newLength)] grows through [reserve(newLength)]: the capacity
    becomes exactly [newLength], then the length is set to [newLength]; the
    bytes below the old length are kept and no byte at or above it is
    written (they are those of the newly allocated array). *)
Theorem resize_grows_exactly fresh n s :
  capacity_ s < n ->
  resize fresh n s = set_len_ (reserve fresh n s) n /\
  capacity_ (resize fresh n s) = n /\
  len_ (resize fresh n s) = n /\
  (forall i, 0 <= i < len_ s -> data_ (resize fresh n s) i = data_ s i) /\
  (forall i, len_ s <= i -> data_ (resize fresh n s) i = fresh i).
Proof.
  intros H. unfold resize, reserve.
  destruct (Z.gtb_spec n (capacity_ s)); [|lia].
  destruct (Z.leb_spec n (capacity_ s)); [lia|].
  repeat split.
  - intros i Hi. now apply (GrowArray_data fresh n s i).
  - intros i Hi. now apply (GrowArray_fresh fresh n s i).
Qed.

Lemma resize_grows_exactly_witness :
  capacity_ (faststring_default zeros) < 33 /\
  capacity_ (resize zeros 33 (faststring_default zeros)) = 33.
Proof.
  assert (H : capacity_ (faststring_default zeros) < 33) by reflexivity.
  split; [exact H|].
  exact (proj1 (proj2 (resize_grows_exactly zeros 33
                         (faststring_default zeros) H))).
Defined.

(** ** Growth on append (C5) *)

(** C5. When [l + count > c], an append of [count] bytes leaves a capacity
    of at least [c + c/2] and at least [l + count], the length after the
    append.  The two sums are [size_t] values: they do not wrap around. *)
Theorem append_growth fresh src count s :
  is_size_t (len_ s + count) ->
  is_size_t (capacity_ s + capacity_ s / 2) ->
  capacity_ s < len_ s + count ->
  capacity_ s + capacity_ s / 2 <= capacity_ (append fresh src count s) /\
  len_ s + count <= capacity_ (append fresh src count s) /\
  len_ (append fresh src count s) = len_ s + count.
Proof.
  intros Hl Hc Hgrow.
  rewrite append_len, append_capacity. unfold EnsureRoomForAppend.
  rewrite (to_size_t_small _ Hl).
  destruct (Z.leb_spec (len_ s + count) (capacity_ s)); [lia|].
  unfold GrowByAtLeast, GrowArray. simpl.
  rewrite (to_size_t_small _ Hl), (to_size_t_small _ Hc). lia.
Qed.

Lemma append_growth_witness :
  let s := resize zeros 30 (faststring_default zeros) in
  let src := block_of_list [1; 2; 3; 4; 5; 6] in
  (is_size_t (len_ s + 6) /\
   is_size_t (capacity_ s + capacity_ s / 2) /\
   capacity_ s < len_ s + 6) /\
  (capacity_ s + capacity_ s / 2 <= capacity_ (append zeros src 6 s) /\
   len_ s + 6 <= capacity_ (append zeros src 6 s) /\
   len_ (append zeros src 6 s) = len_ s + 6).
Proof.
  intros s src.
  assert (H1 : is_size_t (len_ s + 6)) by (vm_compute; split; discriminate).
  assert (H2 : is_size_t (capacity_ s + capacity_ s / 2))
    by (vm_compute; split; discriminate).
  assert (H3 : capacity_ s < len_ s + 6) by reflexivity.
  split; [exact (conj H1 (conj H2 H3))|].
  exact (append_growth zeros src 6 s H1 H2 H3).
Defined.

(** ** release (C7) *)

(** C7. After [release()] the buffer is a default-constructed one: length
    0, capacity [kInitialCapacity], inline storage (the embedded array
    holding what it held, which a new instance leaves unspecified); hence
    every later sequence of operations runs on it as on that new instance.
    The returned array starts with the [length] valid bytes the buffer
    had. *)
Theorem release_resets fresh s :
  snd (release fresh s) = faststring_default (initial_data_ s) /\
  len_ (snd (release fresh s)) = 0 /\
  capacity_ (snd (release fresh s)) = kInitialCapacity /\
  is_inline (snd (release fresh s)) = true /\
  (forall init,
     len_ (snd (release fresh s)) = len_ (faststring_default init) /\
     capacity_ (snd (release fresh s)) = capacity_ (faststring_default init) /\
     is_inline (snd (release fresh s)) = is_inline (faststring_default init) /\
     ToString (snd (release fresh s)) = ToString (faststring_default init)) /\
  (forall ops,
     run ops (snd (release fresh s)) =
     run ops (faststring_default (initial_data_ s))) /\
  (forall fresh',
     AdvanceToSuccessor fresh' (snd (release fresh s)) =
     AdvanceToSuccessor fresh' (faststring_default (initial_data_ s))) /\
  bytes (fst (release fresh s)) (len_ s) = ToString s.
Proof.
  repeat split.
  unfold release, ToString, data. cbn [fst].
  destruct (is_inline s); [|reflexivity].
  apply bytes_ext. intros i Hi. rewrite memcpy_inside by lia. f_equal. lia.
Qed.

(** ** assign_copy (C8) *)

(** C8. [assign_copy(src, len)] followed by [ToString()] yields exactly the
    [len] bytes starting at [src], whatever the state of the buffer and
    however [len] compares with its capacity. *)
Theorem assign_copy_ToString fresh src len s :
  ToString (assign_copy fresh src len s) = bytes src len.
Proof.
  unfold ToString, data. rewrite assign_copy_len.
  unfold assign_copy. rewrite set_data__data.
  apply bytes_ext. intros i Hi.
  rewrite memcpy_inside by lia. f_equal. lia.
Qed.

(** ** Sequences of appends (C2) *)

Lemma EnsureRoomForAppend_data fresh count s i :
  0 <= i < len_ s -> data_ (EnsureRoomForAppend fresh count s) i = data_ s i.
Proof.
  intros H. unfold EnsureRoomForAppend.
  destruct (to_size_t (len_ s + count) <=? capacity_ s); [reflexivity|].
  unfold GrowByAtLeast. now apply GrowArray_data.
Qed.

(** The array after [append]: the bulk copy at offset [length], on both
    paths. *)
Lemma append_data fresh src count s i :
  data_ (append fresh src count s) i =
  memcpy (data_ (EnsureRoomForAppend fresh count s)) (len_ s) src count i.
Proof.
  unfold append. cbv zeta. rewrite set_len__data.
  rewrite set_data__data, EnsureRoomForAppend_len.
  destruct (count <=? 4); [apply copy_bytes_memcpy | reflexivity].
Qed.

Lemma append_spec fresh src count s :
  0 <= len_ s -> 0 <= count -> is_size_t (len_ s + count) ->
  len_ (append fresh src count s) = len_ s + count /\
  ToString (append fresh src count s) = ToString s ++ bytes src count.
Proof.
  intros Hl Hc Hfit.
  assert (Hlen : len_ (append fresh src count s) = len_ s + count).
  { rewrite append_len. now apply to_size_t_small. }
  split; [exact Hlen|].
  unfold ToString, data. rewrite Hlen, bytes_app by assumption.
  f_equal.
  - apply bytes_ext. intros i Hi. rewrite append_data.
    rewrite memcpy_outside by lia. now apply EnsureRoomForAppend_data.
  - apply bytes_ext. intros i Hi. rewrite append_data.
    rewrite memcpy_inside by lia. f_equal. lia.
Qed.

Lemma total_count_nonneg calls :
  Forall (fun '(_, _, count) => 0 <= count) calls -> 0 <= total_count calls.
Proof.
  induction 1 as [|[[f src] c] calls Hc _ IH]; simpl; lia.
Qed.

(** C2. For every finite sequence of [append(src, count)] calls from any
    state, the final length is the starting length plus the sum of the
    counts, and the valid bytes are the starting contents followed by the
    concatenation of the appended byte sequences, on the byte-by-byte path
    ([count <= 4]) and on the bulk-copy path alike.  The final length is a
    [size_t] value. *)
Theorem appends_spec calls s :
  0 <= len_ s ->
  Forall (fun '(_, _, count) => 0 <= count) calls ->
  is_size_t (len_ s + total_count calls) ->
  len_ (appends calls s) = len_ s + total_count calls /\
  ToString (appends calls s) = ToString s ++ appended calls.
Proof.
  intros Hl Hcalls. revert s Hl.
  induction Hcalls as [|[[fresh src] count] calls Hc Hcalls IH];
    intros s Hl Hfit.
  - simpl. rewrite app_nil_r. split; [lia|reflexivity].
  - pose proof (total_count_nonneg calls Hcalls) as Htot.
    cbn [total_count fold_right] in Hfit. fold (total_count calls) in Hfit.
    assert (Hfit1 : is_size_t (len_ s + count))
      by (unfold is_size_t in *; lia).
    destruct (append_spec fresh src count s Hl Hc Hfit1) as [Hlen Hstr].
    unfold appends. cbn [fold_left].
    fold (appends calls (append fresh src count s)).
    destruct (IH (append fresh src count s)) as [IHlen IHstr].
    + lia.
    + rewrite Hlen. now replace (len_ s + count + total_count calls)
        with (len_ s + (count + total_count calls)) by lia.
    + rewrite IHlen, IHstr, Hlen, Hstr.
      cbn [total_count fold_right appended map concat].
      fold (total_count calls). fold (appended calls).
      rewrite <- app_assoc. split; [lia|reflexivity].
Qed.

Lemma appends_spec_witness :
  let calls :=
    [(zeros, block_of_list [7; 8], 2);
     (zeros, block_of_list [1; 2; 3; 4; 5; 6], 6);
     (zeros, block_of_list (repeat 9 40), 40)] in
  let s := of_bytes [42] in
  (0 <= len_ s /\
   Forall (fun '(_, _, count) => 0 <= count) calls /\
   is_size_t (len_ s + total_count calls)) /\
  (len_ (appends calls s) = len_ s + total_count calls /\
   ToString (appends calls s) = ToString s ++ appended calls).
Proof.
  intros calls s.
  assert (H1 : 0 <= len_ s) by (vm_compute; discriminate).
  assert (H2 : Forall (fun '(_, _, count) => 0 <= count) calls)
    by (repeat constructor; vm_compute; discriminate).
  assert (H3 : is_size_t (len_ s + total_count calls))
    by (vm_compute; split; discriminate).
  split; [exact (conj H1 (conj H2 H3))|].
  exact (appends_spec calls s H1 H2 H3).
Defined.

(** ** The loop of AdvanceToSuccessor *)

Lemma AdvanceToSuccessor_loop_done fuel fresh index s :
  AdvanceToSuccessor_loop fuel fresh true index s = (true, index, s).
Proof. now destruct fuel. Qed.

(** The fuel given by [AdvanceToSuccessor] is enough: the state returned
    is one in which the condition of the [while] is false. *)
Lemma AdvanceToSuccessor_loop_exit fresh : forall fuel done index s,
  index <= INT_MAX -> (Z.to_nat (index + 1) <= fuel)%nat ->
  let '(done', index', _) := AdvanceToSuccessor_loop fuel fresh done index s in
  negb done' && (index' >=? 0) = false.
Proof.
  induction fuel as [|fuel IH]; intros done index s Hmax Hfuel.
  - simpl. destruct (Z.geb_spec index 0); [lia|]. apply andb_false_r.
  - cbn [AdvanceToSuccessor_loop].
    destruct (negb done && (index >=? 0)) eqn:Hcond; [|exact Hcond].
    apply andb_prop in Hcond as [_ Hge]. apply Z.geb_le in Hge.
    destruct (data_ s index =? 255).
    + apply IH.
      * pose proof (to_int_range (index - 1)). lia.
      * rewrite to_int_small by (unfold INT_MAX in *; lia). lia.
    + now rewrite AdvanceToSuccessor_loop_done.
Qed.

(** More fuel changes nothing. *)
Lemma AdvanceToSuccessor_loop_fuel fresh : forall fuel done index s,
  index <= INT_MAX -> (Z.to_nat (index + 1) <= fuel)%nat ->
  AdvanceToSuccessor_loop (S fuel) fresh done index s =
  AdvanceToSuccessor_loop fuel fresh done index s.
Proof.
  induction fuel as [|fuel IH]; intros done index s Hmax Hfuel.
  - simpl. destruct (Z.geb_spec index 0); [lia|]. now rewrite andb_false_r.
  - change (AdvanceToSuccessor_loop (S (S fuel)) fresh done index s)
      with (if negb done && (index >=? 0) then
              if data_ s index =? 255 then
                AdvanceToSuccessor_loop (S fuel) fresh done
                  (to_int (index - 1)) s
              else
                AdvanceToSuccessor_loop (S fuel) fresh true index
                  (resize fresh (to_size_t (to_int (index + 1)))
                     (set_data_ s (store (data_ s) index
                                     (to_uint8 (data_ s index + 1)))))
            else (done, index, s)).
    cbn [AdvanceToSuccessor_loop].
    destruct (negb done && (index >=? 0)) eqn:Hcond; [|reflexivity].
    apply andb_prop in Hcond as [_ Hge]. apply Z.geb_le in Hge.
    destruct (data_ s index =? 255).
    + apply IH.
      * pose proof (to_int_range (index - 1)). lia.
      * rewrite to_int_small by (unfold INT_MAX in *; lia). lia.
    + now rewrite !AdvanceToSuccessor_loop_done.
Qed.

Lemma AdvanceToSuccessor_index_range s :
  - INT_MAX - 1 <= AdvanceToSuccessor_index s <= INT_MAX.
Proof. apply to_int_range. Qed.

(** [AdvanceToSuccessor] returns with the loop finished. *)
Lemma AdvanceToSuccessor_exit fresh s :
  let '(done, index, _) :=
    AdvanceToSuccessor_loop (Z.to_nat (AdvanceToSuccessor_index s + 1))
      fresh false (AdvanceToSuccessor_index s) s in
  negb done && (index >=? 0) = false.
Proof.
  apply AdvanceToSuccessor_loop_exit.
  - apply AdvanceToSuccessor_index_range.
  - apply Nat.le_refl.
Qed.

(** A loop that ends with [done] false has written nothing. *)
Lemma AdvanceToSuccessor_loop_false fresh : forall fuel index s,
  fst (fst (AdvanceToSuccessor_loop fuel fresh false index s)) = false ->
  snd (AdvanceToSuccessor_loop fuel fresh false index s) = s.
Proof.
  induction fuel as [|fuel IH]; intros index s; [reflexivity|].
  cbn [AdvanceToSuccessor_loop].
  destruct (negb false && (index >=? 0)); [|reflexivity].
  destruct (data_ s index =? 255).
  - apply IH.
  - rewrite AdvanceToSuccessor_loop_done. discriminate.
Qed.

(** A loop that meets only 0xFF bytes ends with [done] false. *)
Lemma AdvanceToSuccessor_loop_all_ff fresh : forall fuel index s,
  index <= INT_MAX ->
  (forall i, 0 <= i <= index -> data_ s i = 255) ->
  fst (fst (AdvanceToSuccessor_loop fuel fresh false index s)) = false.
Proof.
  induction fuel as [|fuel IH]; intros index s Hmax Hff; [reflexivity|].
  cbn [AdvanceToSuccessor_loop].
  destruct (negb false && (index >=? 0)) eqn:Hcond; [|reflexivity].
  apply andb_prop in Hcond as [_ Hge]. apply Z.geb_le in Hge.
  rewrite (Hff index) by lia. rewrite Z.eqb_refl.
  assert (Hi : to_int (index - 1) = index - 1)
    by (apply to_int_small; unfold INT_MAX in *; lia).
  apply IH; rewrite Hi; [lia|]. intros i Hi'. apply Hff. lia.
Qed.

(** For [x >= 0] the conversion to [int] never exceeds [x]. *)
Lemma to_int_le x : 0 <= x -> to_int x <= x.
Proof.
  intros H. unfold to_int, INT_MAX.
  pose proof (Z.mod_le (x + (2147483647 + 1)) (2 * (2147483647 + 1))).
  lia.
Qed.

Lemma AdvanceToSuccessor_index_lt s :
  is_size_t (len_ s) -> AdvanceToSuccessor_index s < len_ s.
Proof.
  intros [H0 Hmax]. unfold AdvanceToSuccessor_index.
  destruct (Z.eq_dec (len_ s) 0) as [E|E].
  - rewrite E. vm_compute. reflexivity.
  - rewrite to_size_t_small by (unfold is_size_t; lia).
    pose proof (to_int_le (len_ s - 1)). lia.
Qed.

(** ** AdvanceToSuccessor returning false (C10) *)

(** C10. Whenever [AdvanceToSuccessor()] returns false, the length, the
    capacity and the contents of the buffer are unchanged; and it returns
    false on every buffer that is empty or made of 0xFF bytes only. *)
Theorem AdvanceToSuccessor_false_unchanged fresh s :
  (fst (AdvanceToSuccessor fresh s) = false ->
   snd (AdvanceToSuccessor fresh s) = s) /\
  (is_size_t (len_ s) ->
   (forall i, 0 <= i < len_ s -> data_ s i = 255) ->
   AdvanceToSuccessor fresh s = (false, s)).
Proof.
  assert (H1 : fst (AdvanceToSuccessor fresh s) = false ->
               snd (AdvanceToSuccessor fresh s) = s).
  { rewrite AdvanceToSuccessor_fst, AdvanceToSuccessor_snd.
    apply AdvanceToSuccessor_loop_false. }
  split; [exact H1|].
  intros Hlen Hff.
  assert (H2 : fst (AdvanceToSuccessor fresh s) = false).
  { rewrite AdvanceToSuccessor_fst.
    apply AdvanceToSuccessor_loop_all_ff.
    - apply AdvanceToSuccessor_index_range.
    - intros i Hi. apply Hff.
      pose proof (AdvanceToSuccessor_index_lt s Hlen). lia. }
  specialize (H1 H2).
  destruct (AdvanceToSuccessor fresh s) as [b s']. simpl in *. congruence.
Qed.

Lemma AdvanceToSuccessor_false_unchanged_witness :
  (fst (AdvanceToSuccessor zeros (of_bytes [255; 255])) = false /\
   snd (AdvanceToSuccessor zeros (of_bytes [255; 255])) = of_bytes [255; 255])
  /\
  (is_size_t (len_ (of_bytes [255])) /\
   (forall i, 0 <= i < len_ (of_bytes [255]) ->
              data_ (of_bytes [255]) i = 255) /\
   AdvanceToSuccessor zeros (of_bytes [255]) = (false, of_bytes [255])).
Proof.
  assert (H1 : fst (AdvanceToSuccessor zeros (of_bytes [255; 255])) = false)
    by reflexivity.
  assert (H2 : is_size_t (len_ (of_bytes [255])))
    by (vm_compute; split; discriminate).
  assert (H3 : forall i, 0 <= i < len_ (of_bytes [255]) ->
                         data_ (of_bytes [255]) i = 255).
  { intros i Hi. change (len_ (of_bytes [255])) with 1 in Hi.
    assert (i = 0) as -> by lia. reflexivity. }
  split.
  - split; [exact H1|].
    exact (proj1 (AdvanceToSuccessor_false_unchanged zeros
                    (of_bytes [255; 255])) H1).
  - split; [exact H2|]. split; [exact H3|].
    exact (proj2 (AdvanceToSuccessor_false_unchanged zeros (of_bytes [255]))
             H2 H3).
Defined.

(** ** The successor of a byte string *)

Lemma successor_rev_app r x :
  successor_rev (r ++ [x]) =
  match successor_rev r with
  | Some t => Some (t ++ [x])
  | None => if x =? 255 then None else Some [x + 1]
  end.
Proof.
  induction r as [|y r IH]; simpl.
  - reflexivity.
  - destruct (y =? 255); [exact IH|reflexivity].
Qed.

(** The successor, read from the first byte on. *)
Lemma successor_cons x xs :
  successor (x :: xs) =
  match successor xs with
  | Some t => Some (x :: t)
  | None => if x =? 255 then None else Some [x + 1]
  end.
Proof.
  unfold successor. cbn [rev]. rewrite successor_rev_app.
  destruct (successor_rev (rev xs)) as [t|]; simpl.
  - now rewrite rev_app_distr.
  - now destruct (x =? 255).
Qed.

(** There is no successor exactly when every byte is 0xFF (which includes
    the empty string). *)
Lemma successor_None l :
  successor l = None <-> Forall (fun x => x = 255) l.
Proof.
  induction l as [|x xs IH].
  - split; [constructor|reflexivity].
  - rewrite successor_cons. split.
    + destruct (successor xs); [discriminate|].
      destruct (Z.eqb_spec x 255); [|discriminate].
      intros _. constructor; [assumption|]. now apply IH.
    + intros H. inversion H as [|? ? Hx Hxs]; subst.
      apply IH in Hxs. rewrite Hxs. reflexivity.
Qed.

Lemma lex_lt_all_ff xs : forall ys,
  Forall (fun x => x = 255) xs -> Forall is_uint8 ys ->
  (List.length ys <= List.length xs)%nat -> ~ lex_lt xs ys.
Proof.
  induction xs as [|x xs IH]; intros ys Hxs Hys Hlen Hlt.
  - inversion Hlt; subst. simpl in Hlen. lia.
  - inversion Hxs as [|? ? Hx Hxs']; subst.
    inversion Hlt as [|? y ? ys' Hxy|? ? ys' Hlt']; subst.
    + inversion Hys as [|? ? Hy _]; subst. unfold is_uint8 in Hy. lia.
    + inversion Hys as [|? ? _ Hys']; subst.
      apply (IH ys' Hxs' Hys'); [simpl in Hlen; lia|assumption].
Qed.

(** The successor is a string of bytes, no longer than the original,
    strictly greater than it, and below every other such string. *)
Lemma successor_least l : forall t,
  Forall is_uint8 l -> successor l = Some t ->
  Forall is_uint8 t /\
  (List.length t <= List.length l)%nat /\
  lex_lt l t /\
  (forall u, Forall is_uint8 u -> (List.length u <= List.length l)%nat ->
             lex_lt l u -> lex_le t u).
Proof.
  induction l as [|x xs IH]; intros t Hl Hsucc; [discriminate|].
  inversion Hl as [|? ? Hx Hxs]; subst.
  rewrite successor_cons in Hsucc.
  destruct (successor xs) as [t'|] eqn:Hxs_succ.
  - injection Hsucc as <-.
    destruct (IH t' Hxs eq_refl) as (Ht' & Hlen & Hlt & Hmin).
    repeat split.
    + now constructor.
    + simpl. lia.
    + now apply lex_lt_tail.
    + intros u Hu Hulen Hltu.
      inversion Hltu as [|? y ? ys Hxy|? ? ys Hlt']; subst.
      * right. now apply lex_lt_head.
      * inversion Hu as [|? ? _ Hys]; subst.
        destruct (Hmin ys Hys) as [->|Hlt'']; [simpl in Hulen; lia|assumption| |].
        -- now left.
        -- right. now apply lex_lt_tail.
  - apply successor_None in Hxs_succ.
    destruct (Z.eqb_spec x 255) as [|Hx255]; [discriminate|].
    injection Hsucc as <-.
    unfold is_uint8 in Hx.
    repeat split.
    + constructor; [unfold is_uint8; lia|constructor].
    + simpl. lia.
    + apply lex_lt_head. lia.
    + intros u Hu Hulen Hltu.
      inversion Hltu as [|? y ? ys Hxy|? ? ys Hlt']; subst.
      * destruct (Z.eq_dec y (x + 1)) as [->|Hne].
        -- destruct ys as [|z zs]; [now left|].
           right. apply lex_lt_tail. constructor.
        -- right. apply lex_lt_head. lia.
      * inversion Hu as [|? ? _ Hys]; subst.
        exfalso. apply (lex_lt_all_ff xs ys Hxs_succ Hys); [|assumption].
        simpl in Hulen. lia.
Qed.

(** ** AdvanceToSuccessor on buffers shorter than 2^31 bytes *)

Lemma bytes_snoc b n :
  0 <= n -> bytes b (n + 1) = bytes b n ++ [b n].
Proof.
  intros H. rewrite bytes_app by lia. f_equal.
  unfold bytes. simpl. now rewrite Z.add_0_r.
Qed.

Lemma resize_data fresh n s i :
  0 <= i < len_ s -> data_ (resize fresh n s) i = data_ s i.
Proof.
  intros H. unfold resize. rewrite set_len__data.
  destruct (n >? capacity_ s); [|reflexivity].
  unfold reserve. destruct (n <=? capacity_ s); [reflexivity|].
  now apply GrowArray_data.
Qed.

Lemma resize_within fresh n s :
  n <= capacity_ s -> resize fresh n s = set_len_ s n.
Proof.
  intros H. unfold resize.
  now destruct (Z.gtb_spec n (capacity_ s)); [lia|].
Qed.

(** The loop started at [index] computes the successor of the first
    [index + 1] bytes. *)
Lemma AdvanceToSuccessor_loop_spec fresh : forall fuel index s,
  -1 <= index < INT_MAX -> (Z.to_nat (index + 1) <= fuel)%nat ->
  index < len_ s -> all_uint8 (data_ s) (len_ s) ->
  match successor_rev (rev (bytes (data_ s) (index + 1))) with
  | None => AdvanceToSuccessor_loop fuel fresh false index s = (false, -1, s)
  | Some r =>
      exists k s',
        AdvanceToSuccessor_loop fuel fresh false index s = (true, k, s') /\
        ToString s' = rev r /\
        (len_ s <= capacity_ s ->
         capacity_ s' = capacity_ s /\ is_inline s' = is_inline s)
  end.
Proof.
  induction fuel as [|fuel IH]; intros index s Hidx Hfuel Hlen Hbytes.
  - assert (index = -1) as -> by lia. reflexivity.
  - destruct (Z.eq_dec index (-1)) as [->|Hne]; [reflexivity|].
    rewrite bytes_snoc by lia. rewrite rev_app_distr. cbn [rev app successor_rev].
    cbn [AdvanceToSuccessor_loop].
    destruct (Z.geb_spec index 0) as [_|]; [|lia]. cbn [negb andb].
    assert (Hi : to_int (index - 1) = index - 1)
      by (apply to_int_small; unfold INT_MAX in *; lia).
    destruct (Z.eqb_spec (data_ s index) 255) as [Hff|Hff].
    + rewrite Hi.
      specialize (IH (index - 1) s).
      replace (index - 1 + 1) with index in IH by lia.
      apply IH; try lia. assumption.
    + rewrite AdvanceToSuccessor_loop_done.
      assert (Hb : is_uint8 (data_ s index)) by (apply Hbytes; lia).
      unfold is_uint8 in Hb.
      rewrite to_int_small by (unfold INT_MAX in *; lia).
      rewrite to_size_t_small
        by (unfold is_size_t, SIZE_MAX, INT_MAX in *; lia).
      rewrite to_uint8_small by (unfold is_uint8; lia).
      eexists _, _. split; [reflexivity|]. split.
      * unfold ToString, data. rewrite resize_len.
        cbn [rev]. rewrite rev_involutive, bytes_snoc by lia.
        f_equal.
        -- apply bytes_ext. intros i Hi'.
           rewrite resize_data by (rewrite set_data__len; lia).
           rewrite set_data__data. apply store_other. lia.
        -- rewrite resize_data by (rewrite set_data__len; lia).
           rewrite set_data__data. now rewrite store_same.
      * intros Hcap. rewrite resize_within
          by (rewrite set_data__capacity; lia).
        split.
        -- cbn [set_len_ capacity_]. apply set_data__capacity.
        -- unfold is_inline at 1. cbn [set_len_ heap_data_].
           apply set_data__is_inline.
Qed.

Lemma AdvanceToSuccessor_index_small s :
  0 <= len_ s <= INT_MAX + 1 -> AdvanceToSuccessor_index s = len_ s - 1.
Proof.
  intros H. unfold AdvanceToSuccessor_index.
  destruct (Z.eq_dec (len_ s) 0) as [E|E].
  - rewrite E. reflexivity.
  - rewrite to_size_t_small
      by (unfold is_size_t, SIZE_MAX, INT_MAX in *; lia).
    apply to_int_small. unfold INT_MAX in *. lia.
Qed.

(** On a buffer of at most [INT_MAX] bytes, [AdvanceToSuccessor()]
    computes the successor of the contents: it returns true exactly when
    there is one, and then leaves it in the buffer, without changing the
    capacity or the storage; otherwise it returns false and leaves the
    buffer as it was. *)
Theorem AdvanceToSuccessor_successor fresh s :
  0 <= len_ s <= INT_MAX -> all_uint8 (data_ s) (len_ s) ->
  match successor (ToString s) with
  | Some t =>
      fst (AdvanceToSuccessor fresh s) = true /\
      ToString (snd (AdvanceToSuccessor fresh s)) = t /\
      (len_ s <= capacity_ s ->
       capacity_ (snd (AdvanceToSuccessor fresh s)) = capacity_ s /\
       is_inline (snd (AdvanceToSuccessor fresh s)) = is_inline s)
  | None => AdvanceToSuccessor fresh s = (false, s)
  end.
Proof.
  intros Hlen Hbytes.
  assert (Hidx : AdvanceToSuccessor_index s = len_ s - 1)
    by (apply AdvanceToSuccessor_index_small; lia).
  assert (Hloop := AdvanceToSuccessor_loop_spec fresh
                     (Z.to_nat (len_ s - 1 + 1)) (len_ s - 1) s
                     ltac:(lia) (Nat.le_refl _) ltac:(lia) Hbytes).
  unfold AdvanceToSuccessor, successor, ToString, data. rewrite Hidx.
  replace (len_ s - 1 + 1) with (len_ s) in * by lia.
  destruct (successor_rev (rev (bytes (data_ s) (len_ s)))) as [r|];
    cbn [option_map].
  - destruct Hloop as (k & s' & -> & Hstr & Hcap).
    cbn [fst snd]. repeat split; try assumption; now apply Hcap.
  - now rewrite Hloop.
Qed.

(** The scenarios of the specification: "foo" becomes "fop",
    "aab\xFF\xFF" becomes "aac", "\xFF\xFF\x00" becomes "\xFF\xFF\x01";
    "\xFF" and "" yield false. *)
Lemma AdvanceToSuccessor_scenarios :
  (let r := AdvanceToSuccessor zeros (of_bytes [102; 111; 111]) in
   fst r = true /\ ToString (snd r) = [102; 111; 112]) /\
  (let r := AdvanceToSuccessor zeros (of_bytes [97; 97; 98; 255; 255]) in
   fst r = true /\ ToString (snd r) = [97; 97; 99]) /\
  (let r := AdvanceToSuccessor zeros (of_bytes [255; 255; 0]) in
   fst r = true /\ ToString (snd r) = [255; 255; 1]) /\
  fst (AdvanceToSuccessor zeros (of_bytes [255])) = false /\
  fst (AdvanceToSuccessor zeros (of_bytes [])) = false.
Proof. vm_compute. repeat split. Qed.

Lemma all_uint8_ToString s :
  all_uint8 (data_ s) (len_ s) -> Forall is_uint8 (ToString s).
Proof.
  intros H. unfold ToString, data, bytes. apply Forall_forall.
  intros x Hx. apply in_map_iff in Hx as (i & <- & Hi).
  apply in_seq in Hi. apply H. lia.
Qed.

(** On a buffer of at most [INT_MAX] bytes, [AdvanceToSuccessor()] returns
    true if and only if some byte differs from 0xFF; when it returns true
    the new contents are the successor of the old ones as the
    specification words it, no longer than them, strictly greater, and
    below every other byte string with these two properties. *)
Theorem AdvanceToSuccessor_correct fresh s :
  0 <= len_ s <= INT_MAX -> all_uint8 (data_ s) (len_ s) ->
  (fst (AdvanceToSuccessor fresh s) = true <->
   ~ Forall (fun x => x = 255) (ToString s)) /\
  (fst (AdvanceToSuccessor fresh s) = true ->
   successor (ToString s) = Some (ToString (snd (AdvanceToSuccessor fresh s)))
   /\ (len_ (snd (AdvanceToSuccessor fresh s)) <= len_ s)
   /\ lex_lt (ToString s) (ToString (snd (AdvanceToSuccessor fresh s)))
   /\ (forall u, Forall is_uint8 u ->
                 (List.length u <= List.length (ToString s))%nat ->
                 lex_lt (ToString s) u ->
                 lex_le (ToString (snd (AdvanceToSuccessor fresh s))) u)).
Proof.
  intros Hlen Hbytes.
  pose proof (AdvanceToSuccessor_successor fresh s Hlen Hbytes) as H.
  pose proof (successor_None (ToString s)) as Hnone.
  pose proof (successor_least (ToString s)) as Hleast.
  destruct (successor (ToString s)) as [t|].
  - destruct H as (Htrue & Hstr & _).
    destruct (Hleast t (all_uint8_ToString s Hbytes) eq_refl)
      as (Ht & Htlen & Hlt & Hmin).
    split.
    + split; [|intros _; exact Htrue].
      intros _ Hall. apply Hnone in Hall. discriminate.
    + intros _. rewrite Hstr. repeat split; try assumption.
      assert (E : List.length (ToString (snd (AdvanceToSuccessor fresh s)))
                  = List.length t) by now rewrite Hstr.
      unfold ToString in E, Htlen. rewrite bytes_length in E, Htlen.
      destruct (Z.le_gt_cases 0 (len_ (snd (AdvanceToSuccessor fresh s))));
        lia.
  - rewrite H. cbn [fst]. split.
    + split; [discriminate|]. intros Hall. exfalso. apply Hall.
      now apply Hnone.
    + discriminate.
Qed.

Lemma AdvanceToSuccessor_correct_witness :
  (0 <= len_ (of_bytes [97; 97; 98; 255; 255]) <= INT_MAX /\
   all_uint8 (data_ (of_bytes [97; 97; 98; 255; 255]))
             (len_ (of_bytes [97; 97; 98; 255; 255]))) /\
  lex_lt (ToString (of_bytes [97; 97; 98; 255; 255]))
         (ToString (snd (AdvanceToSuccessor zeros
                           (of_bytes [97; 97; 98; 255; 255])))).
Proof.
  assert (H1 : 0 <= len_ (of_bytes [97; 97; 98; 255; 255]) <= INT_MAX)
    by (vm_compute; split; discriminate).
  assert (H2 : all_uint8 (data_ (of_bytes [97; 97; 98; 255; 255]))
                         (len_ (of_bytes [97; 97; 98; 255; 255]))).
  { intros i Hi. change (len_ (of_bytes [97; 97; 98; 255; 255])) with 5 in Hi.
    assert (i = 0 \/ i = 1 \/ i = 2 \/ i = 3 \/ i = 4)
      as [->|[->|[->|[->| ->]]]] by lia;
      vm_compute; split; discriminate. }
  split; [exact (conj H1 H2)|].
  apply (proj2 (AdvanceToSuccessor_correct zeros _ H1 H2)).
  reflexivity.
Defined.

(** ** AdvanceToSuccessor on a buffer of more than 2^31 bytes (C1) *)

(** C1.  [AdvanceToSuccessor()] is to return true exactly on the non-empty
    buffers with a byte other than 0xFF, and then leave the least greater
    byte string of at most the same length.  The buffer [large_buffer],
    reached through the public interface, holds 2^31 + 1 zero bytes: it is
    not empty and its bytes differ from 0xFF, yet [int index = len_ - 1] is
    negative, the loop body is never run, and the function returns false
    and leaves the buffer as it was. *)
Theorem AdvanceToSuccessor_large_buffer fresh :
  reachable large_buffer /\
  len_ large_buffer = 2147483649 /\
  (forall i, 0 <= i < len_ large_buffer -> data_ large_buffer i = 0) /\
  AdvanceToSuccessor_index large_buffer = -2147483648 /\
  AdvanceToSuccessor fresh large_buffer = (false, large_buffer).
Proof.
  assert (Hidx : AdvanceToSuccessor_index large_buffer = -2147483648)
    by (vm_compute; reflexivity).
  split; [|split; [|split; [|split]]].
  - apply (reachable_step (OpAssignCopy zeros zeros (INT_MAX + 2))).
    + apply reachable_default.
    + vm_compute. split; discriminate.
  - reflexivity.
  - intros i Hi. change (len_ large_buffer) with (INT_MAX + 2) in Hi.
    unfold large_buffer, assign_copy.
    rewrite set_data__data, memcpy_inside by lia. reflexivity.
  - exact Hidx.
  - unfold AdvanceToSuccessor. rewrite Hidx. reflexivity.
Qed.

(** * Further properties of the interface *)

(** ** The two copy paths of append *)

(** The byte-by-byte loop taken for [count <= 4] and the bulk copy taken
    otherwise write the same array, for every count. *)
Theorem append_paths_agree d p src count :
  forall j, copy_bytes (Z.to_nat count) d p src 0 j = memcpy d p src count j.
Proof.
  intros j. rewrite copy_bytes_spec. unfold memcpy.
  destruct (Z.leb_spec p j);
    destruct (Z.ltb_spec j (p + Z.of_nat (Z.to_nat count)));
    destruct (Z.ltb_spec j (p + count)); simpl; try lia; reflexivity.
Qed.

(** ** push_back *)

Lemma set_len__is_inline s n : is_inline (set_len_ s n) = is_inline s.
Proof. reflexivity. Qed.

Lemma push_back_data fresh byte s i :
  data_ (push_back fresh byte s) i =
  store (data_ (EnsureRoomForAppend fresh 1 s)) (len_ s) (to_uint8 byte) i.
Proof.
  unfold push_back. cbv zeta.
  now rewrite set_len__data, set_data__data, EnsureRoomForAppend_len.
Qed.

Lemma push_back_spec fresh byte s :
  0 <= len_ s -> is_size_t (len_ s + 1) ->
  len_ (push_back fresh byte s) = len_ s + 1 /\
  ToString (push_back fresh byte s) = ToString s ++ [to_uint8 byte].
Proof.
  intros Hl Hfit.
  assert (Hlen : len_ (push_back fresh byte s) = len_ s + 1).
  { rewrite push_back_len. now apply to_size_t_small. }
  split; [exact Hlen|].
  unfold ToString, data. rewrite Hlen, bytes_snoc by assumption.
  f_equal.
  - apply bytes_ext. intros i Hi. rewrite push_back_data.
    rewrite store_other by lia. now apply EnsureRoomForAppend_data.
  - now rewrite push_back_data, store_same.
Qed.

(** Pushing bytes one after another appends them in order, each reduced
    to a [uint8_t], and adds their number to the length. *)
Theorem push_backs_spec l : forall s,
  0 <= len_ s -> is_size_t (len_ s + Z.of_nat (List.length l)) ->
  len_ (push_backs l s) = len_ s + Z.of_nat (List.length l) /\
  ToString (push_backs l s) =
  ToString s ++ map (fun '(_, byte) => to_uint8 byte) l.
Proof.
  induction l as [|[fresh byte] l IH]; intros s Hl Hfit.
  - simpl. rewrite app_nil_r. split; [lia|reflexivity].
  - cbn [List.length] in Hfit. rewrite Nat2Z.inj_succ in Hfit.
    assert (Hfit1 : is_size_t (len_ s + 1)) by (unfold is_size_t in *; lia).
    destruct (push_back_spec fresh byte s Hl Hfit1) as [Hlen Hstr].
    unfold push_backs. cbn [fold_left].
    fold (push_backs l (push_back fresh byte s)).
    destruct (IH (push_back fresh byte s)) as [IHlen IHstr].
    + lia.
    + rewrite Hlen. unfold is_size_t in *. lia.
    + rewrite IHlen, IHstr, Hlen, Hstr. cbn [map List.length].
      rewrite <- app_assoc. split; [lia|reflexivity].
Qed.

Lemma push_backs_spec_witness :
  let l := [(zeros, 104); (zeros, 105); (zeros, -1)] in
  let s := of_bytes [1; 2] in
  (0 <= len_ s /\ is_size_t (len_ s + Z.of_nat (List.length l))) /\
  (len_ (push_backs l s) = len_ s + Z.of_nat (List.length l) /\
   ToString (push_backs l s) =
   ToString s ++ map (fun '(_, byte) => to_uint8 byte) l).
Proof.
  intros l s.
  assert (H1 : 0 <= len_ s) by (vm_compute; discriminate).
  assert (H2 : is_size_t (len_ s + Z.of_nat (List.length l)))
    by (vm_compute; split; discriminate).
  split; [exact (conj H1 H2)|].
  exact (push_backs_spec l s H1 H2).
Defined.

(** [push_back(byte)] and [append(src, 1)] with [src[0]] the same byte
    leave the same length, capacity, storage and array. *)
Theorem push_back_as_append fresh byte src s :
  src 0 = to_uint8 byte ->
  len_ (push_back fresh byte s) = len_ (append fresh src 1 s) /\
  capacity_ (push_back fresh byte s) = capacity_ (append fresh src 1 s) /\
  is_inline (push_back fresh byte s) = is_inline (append fresh src 1 s) /\
  (forall i, data_ (push_back fresh byte s) i = data_ (append fresh src 1 s) i).
Proof.
  intros Hsrc. split; [|split; [|split]].
  - now rewrite push_back_len, append_len.
  - now rewrite push_back_capacity, append_capacity.
  - unfold push_back, append. cbv zeta.
    now rewrite !set_len__is_inline, !set_data__is_inline.
  - intros i. rewrite push_back_data, append_data. unfold store, memcpy.
    destruct (Z.eqb_spec i (len_ s)) as [->|Hne].
    + rewrite Z.leb_refl.
      destruct (Z.ltb_spec (len_ s) (len_ s + 1)); [|lia].
      simpl. now rewrite Z.sub_diag.
    + destruct (Z.leb_spec (len_ s) i);
        destruct (Z.ltb_spec i (len_ s + 1)); simpl; try reflexivity; lia.
Qed.

Lemma push_back_as_append_witness :
  block_of_list [200] 0 = to_uint8 (-56) /\
  len_ (push_back zeros (-56) (of_bytes [1; 2])) =
  len_ (append zeros (block_of_list [200]) 1 (of_bytes [1; 2])).
Proof.
  assert (H : block_of_list [200] 0 = to_uint8 (-56)) by reflexivity.
  split; [exact H|].
  exact (proj1 (push_back_as_append zeros (-56) (block_of_list [200])
                  (of_bytes [1; 2]) H)).
Defined.

(** ** The std::string overloads *)

(** [append(str)] adds exactly the bytes of [str] after the contents. *)
Theorem append_string_spec fresh str s :
  0 <= len_ s -> is_size_t (len_ s + Z.of_nat (List.length str)) ->
  len_ (append_string fresh str s) = len_ s + Z.of_nat (List.length str) /\
  ToString (append_string fresh str s) = ToString s ++ str.
Proof.
  intros Hl Hfit. unfold append_string.
  destruct (append_spec fresh (block_of_list str)
              (Z.of_nat (List.length str)) s Hl (Nat2Z.is_nonneg _) Hfit)
    as [Hlen Hstr].
  split; [exact Hlen|]. now rewrite Hstr, bytes_block_of_list.
Qed.

Lemma append_string_spec_witness :
  let s := of_bytes [102; 111] in
  let str := [111; 98; 97; 114; 33] in
  (0 <= len_ s /\ is_size_t (len_ s + Z.of_nat (List.length str))) /\
  (len_ (append_string zeros str s) = len_ s + Z.of_nat (List.length str) /\
   ToString (append_string zeros str s) = ToString s ++ str).
Proof.
  intros s str.
  assert (H1 : 0 <= len_ s) by (vm_compute; discriminate).
  assert (H2 : is_size_t (len_ s + Z.of_nat (List.length str)))
    by (vm_compute; split; discriminate).
  split; [exact (conj H1 H2)|].
  exact (append_string_spec zeros str s H1 H2).
Defined.

Lemma assign_copy_data fresh src len s i :
  0 <= i < len -> data_ (assign_copy fresh src len s) i = src i.
Proof.
  intros H. unfold assign_copy. rewrite set_data__data.
  rewrite memcpy_inside by lia. f_equal. lia.
Qed.

(** [assign_copy(str)] followed by [ToString()] gives [str] back, whatever
    the buffer held and whatever its capacity was; the length is the size
    of [str] and the capacity has grown to it if it was smaller. *)
Theorem assign_copy_string_roundtrip fresh str s :
  ToString (assign_copy_string fresh str s) = str /\
  len_ (assign_copy_string fresh str s) = Z.of_nat (List.length str) /\
  capacity_ (assign_copy_string fresh str s) =
  Z.max (Z.of_nat (List.length str)) (capacity_ s).
Proof.
  unfold assign_copy_string. split; [|split].
  - unfold ToString, data. rewrite assign_copy_len.
    transitivity (bytes (block_of_list str) (Z.of_nat (List.length str)));
      [|apply bytes_block_of_list].
    apply bytes_ext. intros i Hi. now apply assign_copy_data.
  - apply assign_copy_len.
  - apply assign_copy_capacity.
Qed.

(** ** Indexing *)

(** After [append(src, count)], [at(length + i)] is the [i]-th appended
    byte and [at(j)] below the old length is what it was. *)
Theorem append_at fresh src count s :
  (forall i, 0 <= i < count ->
             at_ (append fresh src count s) (len_ s + i) = src i) /\
  (forall j, 0 <= j < len_ s ->
             at_ (append fresh src count s) j = at_ s j).
Proof.
  unfold at_. split.
  - intros i Hi. rewrite append_data, memcpy_inside by lia. f_equal. lia.
  - intros j Hj. rewrite append_data, memcpy_outside by lia.
    now apply EnsureRoomForAppend_data.
Qed.

Lemma append_at_witness :
  (0 <= 1 < 2 /\
   at_ (append zeros (block_of_list [7; 8]) 2 (of_bytes [1; 2; 3]))
       (len_ (of_bytes [1; 2; 3]) + 1) = block_of_list [7; 8] 1) /\
  (0 <= 2 < len_ (of_bytes [1; 2; 3]) /\
   at_ (append zeros (block_of_list [7; 8]) 2 (of_bytes [1; 2; 3])) 2 =
   at_ (of_bytes [1; 2; 3]) 2).
Proof.
  assert (H1 : 0 <= 1 < 2) by lia.
  assert (H2 : 0 <= 2 < len_ (of_bytes [1; 2; 3]))
    by (vm_compute; split; [discriminate|reflexivity]).
  split.
  - split; [exact H1|].
    exact (proj1 (append_at zeros (block_of_list [7; 8]) 2
                    (of_bytes [1; 2; 3])) 1 H1).
  - split; [exact H2|].
    exact (proj2 (append_at zeros (block_of_list [7; 8]) 2
                    (of_bytes [1; 2; 3])) 2 H2).
Defined.

(** [ToString()] has [length()] bytes, and its [i]-th byte is [at(i)]. *)
Theorem ToString_at s :
  List.length (ToString s) = Z.to_nat (length s) /\
  (forall i d, 0 <= i < length s ->
               nth (Z.to_nat i) (ToString s) d = at_ s i).
Proof.
  unfold ToString, data, length, at_. split.
  - apply bytes_length.
  - intros i d Hi. rewrite bytes_nth by lia. f_equal. lia.
Qed.

Lemma ToString_at_witness :
  0 <= 1 < length (of_bytes [5; 6; 7]) /\
  nth (Z.to_nat 1) (ToString (of_bytes [5; 6; 7])) 0 =
  at_ (of_bytes [5; 6; 7]) 1.
Proof.
  assert (H : 0 <= 1 < length (of_bytes [5; 6; 7]))
    by (vm_compute; split; [discriminate|reflexivity]).
  split; [exact H|].
  exact (proj2 (ToString_at (of_bytes [5; 6; 7])) 1 0 H).
Defined.

(** ** clear and resize *)

(** [clear()] sets the length to 0 and touches nothing else: capacity,
    storage and array are as before, for a capacity of type [size_t]. *)
Theorem clear_spec fresh s :
  0 <= capacity_ s ->
  clear fresh s = set_len_ s 0 /\
  len_ (clear fresh s) = 0 /\
  capacity_ (clear fresh s) = capacity_ s /\
  is_inline (clear fresh s) = is_inline s /\
  data_ (clear fresh s) = data_ s /\
  ToString (clear fresh s) = [].
Proof.
  intros H.
  assert (E : clear fresh s = set_len_ s 0)
    by (unfold clear; now apply resize_within).
  rewrite E. repeat split.
Qed.

Lemma clear_spec_witness :
  0 <= capacity_ (of_bytes [1; 2; 3]) /\
  clear zeros (of_bytes [1; 2; 3]) = set_len_ (of_bytes [1; 2; 3]) 0.
Proof.
  assert (H : 0 <= capacity_ (of_bytes [1; 2; 3]))
    by (vm_compute; discriminate).
  split; [exact H|].
  exact (proj1 (clear_spec zeros (of_bytes [1; 2; 3]) H)).
Defined.

Lemma firstn_bytes b k n :
  0 <= k <= n -> firstn (Z.to_nat k) (bytes b n) = bytes b k.
Proof.
  intros H. replace n with (k + (n - k)) by lia.
  rewrite bytes_app by lia.
  rewrite firstn_app, bytes_length, Nat.sub_diag, firstn_O, app_nil_r.
  apply firstn_all2. rewrite bytes_length. lia.
Qed.

(** [resize(n)] keeps the bytes below both the old and the new length.
    Shrinking ([n <= length]) truncates the contents and changes neither
    the capacity nor the storage; growing ([n >= length]) leaves the old
    contents as the first [length] bytes, reallocated or not. *)
Theorem resize_contents fresh n s :
  (0 <= n <= len_ s -> len_ s <= capacity_ s ->
   ToString (resize fresh n s) = firstn (Z.to_nat n) (ToString s) /\
   capacity_ (resize fresh n s) = capacity_ s /\
   is_inline (resize fresh n s) = is_inline s /\
   data_ (resize fresh n s) = data_ s) /\
  (0 <= len_ s <= n ->
   firstn (Z.to_nat (len_ s)) (ToString (resize fresh n s)) = ToString s).
Proof.
  split.
  - intros Hn Hcap. rewrite resize_within by lia.
    repeat split. unfold ToString, data. cbn [set_len_ len_].
    rewrite set_len__data. symmetry. now apply firstn_bytes.
  - intros Hn. unfold ToString, data. rewrite resize_len.
    rewrite firstn_bytes by assumption.
    apply bytes_ext. intros i Hi. now apply resize_data.
Qed.

Lemma resize_contents_witness :
  ((0 <= 2 <= len_ (of_bytes [1; 2; 3; 4]) /\
    len_ (of_bytes [1; 2; 3; 4]) <= capacity_ (of_bytes [1; 2; 3; 4])) /\
   ToString (resize zeros 2 (of_bytes [1; 2; 3; 4])) =
   firstn (Z.to_nat 2) (ToString (of_bytes [1; 2; 3; 4]))) /\
  (0 <= len_ (of_bytes [1; 2; 3; 4]) <= 40 /\
   firstn (Z.to_nat (len_ (of_bytes [1; 2; 3; 4])))
          (ToString (resize zeros 40 (of_bytes [1; 2; 3; 4]))) =
   ToString (of_bytes [1; 2; 3; 4])).
Proof.
  assert (H1 : 0 <= 2 <= len_ (of_bytes [1; 2; 3; 4]))
    by (vm_compute; split; discriminate).
  assert (H2 : len_ (of_bytes [1; 2; 3; 4])
               <= capacity_ (of_bytes [1; 2; 3; 4]))
    by (vm_compute; discriminate).
  assert (H3 : 0 <= len_ (of_bytes [1; 2; 3; 4]) <= 40)
    by (vm_compute; split; discriminate).
  split.
  - split; [exact (conj H1 H2)|].
    exact (proj1 (proj1 (resize_contents zeros 2 (of_bytes [1; 2; 3; 4]))
                    H1 H2)).
  - split; [exact H3|].
    exact (proj2 (resize_contents zeros 40 (of_bytes [1; 2; 3; 4])) H3).
Defined.

(** ** Inline and heap storage *)

Lemma set_len__capacity s n : capacity_ (set_len_ s n) = capacity_ s.
Proof. reflexivity. Qed.

Lemma resize_initial_data fresh n s :
  initial_data_ (resize fresh n s) = initial_data_ s.
Proof.
  unfold resize, reserve.
  destruct (n >? capacity_ s); [|reflexivity].
  now destruct (n <=? capacity_ s).
Qed.

Lemma EnsureRoomForAppend_initial_data fresh count s :
  initial_data_ (EnsureRoomForAppend fresh count s) = initial_data_ s.
Proof.
  unfold EnsureRoomForAppend.
  now destruct (to_size_t (len_ s + count) <=? capacity_ s).
Qed.

Lemma set_data__initial_data s d :
  initial_data_ (set_data_ s d) =
  if is_inline s then d else initial_data_ s.
Proof. unfold set_data_, is_inline. now destruct (heap_data_ s). Qed.

Lemma data__inline s : is_inline s = true -> data_ s = initial_data_ s.
Proof. unfold data_, is_inline. now destruct (heap_data_ s). Qed.

(** A buffer that is inline after [EnsureRoomForAppend] was inline before
    it and has not grown. *)
Lemma EnsureRoomForAppend_inline fresh count s :
  is_inline (EnsureRoomForAppend fresh count s) = true ->
  EnsureRoomForAppend fresh count s = s /\
  to_size_t (len_ s + count) <= capacity_ s.
Proof.
  unfold EnsureRoomForAppend.
  destruct (Z.leb_spec (to_size_t (len_ s + count)) (capacity_ s)).
  - now split.
  - discriminate.
Qed.

Lemma resize_storage_invariant fresh n s :
  kInitialCapacity <= capacity_ s ->
  storage_invariant s -> storage_invariant (resize fresh n s).
Proof.
  unfold storage_invariant, resize, reserve. intros Hcap Hs.
  destruct (Z.gtb_spec n (capacity_ s)); [|exact Hs].
  destruct (Z.leb_spec n (capacity_ s)); [lia|].
  simpl. split; [discriminate|lia].
Qed.

Lemma EnsureRoomForAppend_storage_invariant fresh count s :
  kInitialCapacity <= capacity_ s ->
  storage_invariant s ->
  storage_invariant (EnsureRoomForAppend fresh count s).
Proof.
  unfold storage_invariant, EnsureRoomForAppend. intros Hcap Hs.
  destruct (Z.leb_spec (to_size_t (len_ s + count)) (capacity_ s));
    [exact Hs|].
  unfold GrowByAtLeast, GrowArray. simpl. split; [discriminate|lia].
Qed.

Lemma step_storage_invariant o s :
  op_ok o -> invariant s -> storage_invariant s ->
  storage_invariant (step o s).
Proof.
  intros Hok Hinv Hs. pose proof Hinv as [_ Hcap].
  destruct o; cbn [step].
  - now apply resize_storage_invariant.
  - now apply resize_storage_invariant.
  - unfold storage_invariant, reserve in *.
    destruct (Z.leb_spec newcapacity (capacity_ s)); [exact Hs|].
    simpl. split; [discriminate|lia].
  - pose proof (EnsureRoomForAppend_storage_invariant fresh count s Hcap Hs)
      as H.
    unfold storage_invariant in *. unfold append. cbv zeta.
    now rewrite set_len__is_inline, set_len__capacity, set_data__is_inline,
      set_data__capacity.
  - pose proof (EnsureRoomForAppend_storage_invariant fresh 1 s Hcap Hs)
      as H.
    unfold storage_invariant in *. unfold push_back. cbv zeta.
    now rewrite set_len__is_inline, set_len__capacity, set_data__is_inline,
      set_data__capacity.
  - unfold assign_copy. cbv zeta.
    pose proof (resize_storage_invariant fresh len (set_len_ s 0) Hcap Hs)
      as H.
    unfold storage_invariant in *.
    now rewrite set_data__is_inline, set_data__capacity.
  - unfold storage_invariant. simpl. split; reflexivity.
  - rewrite AdvanceToSuccessor_snd.
    apply (AdvanceToSuccessor_loop_keeps
             (fun t => kInitialCapacity <= capacity_ t /\
                       storage_invariant t)); [| |now split].
    + intros t d [Hc Ht]. unfold storage_invariant in *.
      now rewrite set_data__is_inline, set_data__capacity.
    + intros t n _ [Hc Ht]. split.
      * rewrite resize_capacity. lia.
      * now apply resize_storage_invariant.
Qed.

Lemma reachable_invariants s :
  reachable s -> invariant s /\ storage_invariant s.
Proof.
  induction 1 as [init|init fresh c Hc|o s H [IH1 IH2] Hok].
  - unfold invariant, storage_invariant. simpl. unfold kInitialCapacity.
    repeat split; lia.
  - unfold invariant, storage_invariant, faststring_with_capacity.
    cbn [capacity_].
    destruct (Z.gtb_spec c kInitialCapacity); unfold kInitialCapacity in *;
      simpl; repeat split; try lia; discriminate.
  - split; [now apply step_invariant | now apply step_storage_invariant].
Qed.

(** In every reachable state the buffer uses its embedded array exactly
    when its capacity is [kInitialCapacity]; on the heap the capacity is
    larger. *)
Theorem reachable_storage s :
  reachable s ->
  (is_inline s = true <-> capacity_ s = kInitialCapacity) /\
  (is_inline s = false <-> kInitialCapacity < capacity_ s).
Proof.
  intros H. destruct (reachable_invariants s H) as [[_ Hcap] Hs].
  unfold storage_invariant in Hs. split; [exact Hs|].
  destruct (is_inline s); split; intros H'; try discriminate; try reflexivity.
  - assert (capacity_ s = kInitialCapacity) by now apply Hs. lia.
  - destruct (Z.eq_dec (capacity_ s) kInitialCapacity) as [E|E]; [|lia].
    apply Hs in E. discriminate.
Qed.

Lemma reachable_storage_witness :
  let s := step (OpReserve zeros 100) (faststring_default zeros) in
  reachable s /\
  ((is_inline s = true <-> capacity_ s = kInitialCapacity) /\
   (is_inline s = false <-> kInitialCapacity < capacity_ s)).
Proof.
  intros s.
  assert (Hr : reachable s).
  { apply reachable_step; [apply reachable_default|].
    vm_compute. split; discriminate. }
  split; [exact Hr | exact (reachable_storage s Hr)].
Defined.

(** ** No write outside the arrays *)

Lemma AdvanceToSuccessor_loop_initial_data fresh : forall fuel done index s,
  (is_inline s = true -> index < kInitialCapacity) ->
  forall i, i < 0 \/ kInitialCapacity <= i ->
  initial_data_ (snd (AdvanceToSuccessor_loop fuel fresh done index s)) i =
  initial_data_ s i.
Proof.
  induction fuel as [|fuel IH]; intros done index s Hidx i Hi; [reflexivity|].
  cbn [AdvanceToSuccessor_loop].
  destruct (negb done && (index >=? 0)) eqn:Hcond; [|reflexivity].
  apply andb_prop in Hcond as [_ Hge]. apply Z.geb_le in Hge.
  destruct (data_ s index =? 255).
  - apply IH; [|assumption]. intros Hin. specialize (Hidx Hin).
    destruct (Z.eq_dec index 0) as [->|Hne].
    + vm_compute. reflexivity.
    + pose proof (to_int_le (index - 1)). lia.
  - rewrite AdvanceToSuccessor_loop_done. cbn [snd].
    rewrite resize_initial_data, set_data__initial_data.
    destruct (is_inline s) eqn:Hin; [|reflexivity].
    rewrite store_other by (specialize (Hidx eq_refl); lia).
    now rewrite data__inline.
Qed.

(** No operation on a reachable buffer writes the embedded array
    [initial_data_] outside its [kInitialCapacity] cells, as long as the sum
    formed by [append] does not wrap around. *)
Theorem initial_data_in_bounds o s :
  reachable s -> op_ok o -> op_fits o s ->
  forall i, i < 0 \/ kInitialCapacity <= i ->
            initial_data_ (step o s) i = initial_data_ s i.
Proof.
  intros Hr Hok Hfit i Hi.
  destruct (reachable_invariants s Hr) as [[Hlen Hcap] Hs].
  unfold storage_invariant in Hs.
  destruct o; cbn [step op_ok op_fits] in *.
  - unfold clear. now rewrite resize_initial_data.
  - now rewrite resize_initial_data.
  - unfold reserve. now destruct (newcapacity <=? capacity_ s).
  - unfold append. cbv zeta. cbn [set_len_ initial_data_].
    rewrite set_data__initial_data.
    destruct (is_inline (EnsureRoomForAppend fresh count s)) eqn:Hin;
      [|now rewrite EnsureRoomForAppend_initial_data].
    destruct (EnsureRoomForAppend_inline fresh count s Hin) as [E Hroom].
    rewrite E in *. rewrite (to_size_t_small _ Hfit) in Hroom.
    assert (capacity_ s = kInitialCapacity) by now apply Hs.
    unfold is_size_t in Hok.
    transitivity (memcpy (data_ s) (len_ s) src count i).
    + destruct (count <=? 4); [apply copy_bytes_memcpy|reflexivity].
    + rewrite memcpy_outside by lia. now rewrite data__inline.
  - unfold push_back. cbv zeta. cbn [set_len_ initial_data_].
    rewrite set_data__initial_data.
    destruct (is_inline (EnsureRoomForAppend fresh 1 s)) eqn:Hin;
      [|now rewrite EnsureRoomForAppend_initial_data].
    destruct (EnsureRoomForAppend_inline fresh 1 s Hin) as [E Hroom].
    rewrite E in *.
    assert (capacity_ s = kInitialCapacity) by now apply Hs.
    rewrite to_size_t_small in Hroom
      by (unfold is_size_t, SIZE_MAX, kInitialCapacity in *; lia).
    rewrite store_other by lia. now rewrite data__inline.
  - unfold assign_copy. cbv zeta. rewrite set_data__initial_data.
    destruct (is_inline (resize fresh len (set_len_ s 0))) eqn:Hin;
      [|now rewrite resize_initial_data].
    unfold data.
    destruct (Z.gtb_spec len (capacity_ s)) as [Hgt|Hle].
    + unfold resize, reserve in Hin. cbn [set_len_ capacity_] in Hin.
      destruct (Z.gtb_spec len (capacity_ s)); [|lia].
      destruct (Z.leb_spec len (capacity_ s)); [lia|discriminate].
    + rewrite resize_within in * by (cbn [set_len_ capacity_]; lia).
      assert (capacity_ s = kInitialCapacity) by now apply Hs.
      unfold is_size_t in Hok.
      rewrite memcpy_outside by lia.
      rewrite data__inline by assumption. reflexivity.
  - reflexivity.
  - rewrite AdvanceToSuccessor_snd.
    apply AdvanceToSuccessor_loop_initial_data; [|assumption].
    intros Hin.
    assert (capacity_ s = kInitialCapacity) by now apply Hs.
    assert (Hsz : is_size_t (len_ s))
      by (unfold is_size_t, SIZE_MAX, kInitialCapacity in *; lia).
    pose proof (AdvanceToSuccessor_index_lt s Hsz). lia.
Qed.

Lemma initial_data_in_bounds_witness :
  let s := of_bytes (repeat 7 30) in
  let o := OpAppend zeros (block_of_list [1; 2]) 2 in
  (reachable s /\ op_ok o /\ op_fits o s /\ (40 < 0 \/ kInitialCapacity <= 40))
  /\ initial_data_ (step o s) 40 = initial_data_ s 40.
Proof.
  intros s o.
  assert (Hr : reachable s).
  { apply (reachable_step (OpAssignCopy _ _ _));
      [apply reachable_default|]. vm_compute. split; discriminate. }
  assert (Hok : op_ok o) by (vm_compute; split; discriminate).
  assert (Hfit : op_fits o s) by (vm_compute; split; discriminate).
  assert (Hi : 40 < 0 \/ kInitialCapacity <= 40)
    by (right; vm_compute; discriminate).
  split; [exact (conj Hr (conj Hok (conj Hfit Hi)))|].
  exact (initial_data_in_bounds o s Hr Hok Hfit 40 Hi).
Defined.

(** [append] leaves room for what it copies and writes nothing outside
    the array: beyond the capacity (and below offset 0) the array is the
    old one when there was room, the newly allocated one otherwise. *)
Theorem append_in_bounds fresh src count s :
  0 <= len_ s -> 0 <= count -> is_size_t (len_ s + count) ->
  len_ (append fresh src count s) <= capacity_ (append fresh src count s) /\
  (forall i, i < 0 \/ capacity_ (append fresh src count s) <= i ->
             data_ (append fresh src count s) i =
             if len_ s + count <=? capacity_ s then data_ s i else fresh i).
Proof.
  intros Hl Hc Hfit.
  pose proof (EnsureRoomForAppend_capacity fresh count s) as [Hroom _].
  rewrite (to_size_t_small _ Hfit) in Hroom.
  rewrite append_len, append_capacity, (to_size_t_small _ Hfit).
  split; [exact Hroom|].
  intros i Hi. rewrite append_data, memcpy_outside by lia.
  revert Hi Hroom. unfold EnsureRoomForAppend.
  rewrite (to_size_t_small _ Hfit).
  destruct (len_ s + count <=? capacity_ s); [reflexivity|].
  unfold GrowByAtLeast, GrowArray, data_ at 1. simpl. intros Hi Hroom.
  apply memcpy_outside. lia.
Qed.

Lemma append_in_bounds_witness :
  let s := of_bytes (repeat 7 30) in
  let src := block_of_list [1; 2; 3; 4; 5; 6] in
  (0 <= len_ s /\ 0 <= 6 /\ is_size_t (len_ s + 6)) /\
  (len_ (append zeros src 6 s) <= capacity_ (append zeros src 6 s) /\
   (forall i, i < 0 \/ capacity_ (append zeros src 6 s) <= i ->
              data_ (append zeros src 6 s) i =
              if len_ s + 6 <=? capacity_ s then data_ s i else zeros i)).
Proof.
  intros s src.
  assert (H1 : 0 <= len_ s) by (vm_compute; discriminate).
  assert (H2 : 0 <= 6) by lia.
  assert (H3 : is_size_t (len_ s + 6)) by (vm_compute; split; discriminate).
  split; [exact (conj H1 (conj H2 H3))|].
  exact (append_in_bounds zeros src 6 s H1 H2 H3).
Defined.

(** ** Appending within the capacity *)

Lemma append_no_growth fresh src count s :
  0 <= len_ s -> 0 <= count -> len_ s + count <= capacity_ s ->
  is_size_t (capacity_ s) ->
  EnsureRoomForAppend fresh count s = s /\
  len_ (append fresh src count s) = len_ s + count /\
  capacity_ (append fresh src count s) = capacity_ s /\
  is_inline (append fresh src count s) = is_inline s.
Proof.
  intros Hl Hc Hroom Hcap.
  assert (Hfit : is_size_t (len_ s + count))
    by (unfold is_size_t in *; lia).
  assert (E : EnsureRoomForAppend fresh count s = s).
  { unfold EnsureRoomForAppend. rewrite (to_size_t_small _ Hfit).
    now destruct (Z.leb_spec (len_ s + count) (capacity_ s)); [|lia]. }
  split; [exact E|].
  rewrite append_len, append_capacity, E, (to_size_t_small _ Hfit).
  split; [reflexivity|]. split; [reflexivity|].
  unfold append. cbv zeta.
  now rewrite set_len__is_inline, set_data__is_inline, E.
Qed.

(** Appends whose total fits in the capacity never reallocate: the
    capacity and the storage stay what they were (so after [reserve(n)],
    appends up to a length of [n] keep the array in place). *)
Theorem appends_within_capacity calls : forall s,
  0 <= len_ s ->
  Forall (fun '(_, _, count) => 0 <= count) calls ->
  len_ s + total_count calls <= capacity_ s ->
  is_size_t (capacity_ s) ->
  capacity_ (appends calls s) = capacity_ s /\
  is_inline (appends calls s) = is_inline s.
Proof.
  induction calls as [|[[fresh src] count] calls IH];
    intros s Hl Hcalls Hroom Hcap.
  - now split.
  - inversion Hcalls as [|? ? Hc Hcalls']; subst.
    pose proof (total_count_nonneg calls Hcalls') as Htot.
    cbn [total_count fold_right] in Hroom. fold (total_count calls) in Hroom.
    destruct (append_no_growth fresh src count s Hl Hc ltac:(lia) Hcap)
      as (_ & Hlen & Hcap' & Hin).
    unfold appends. cbn [fold_left].
    fold (appends calls (append fresh src count s)).
    destruct (IH (append fresh src count s)) as [IHcap IHin].
    + lia.
    + assumption.
    + rewrite Hlen, Hcap'. lia.
    + now rewrite Hcap'.
    + rewrite IHcap, IHin. now split.
Qed.

Lemma appends_within_capacity_witness :
  let s := reserve zeros 100 (of_bytes [1; 2; 3]) in
  let calls :=
    [(zeros, block_of_list [4; 5], 2);
     (zeros, block_of_list (repeat 9 60), 60)] in
  (0 <= len_ s /\
   Forall (fun '(_, _, count) => 0 <= count) calls /\
   len_ s + total_count calls <= capacity_ s /\
   is_size_t (capacity_ s)) /\
  (capacity_ (appends calls s) = capacity_ s /\
   is_inline (appends calls s) = is_inline s).
Proof.
  intros s calls.
  assert (H1 : 0 <= len_ s) by (vm_compute; discriminate).
  assert (H2 : Forall (fun '(_, _, count) => 0 <= count) calls)
    by (repeat constructor; vm_compute; discriminate).
  assert (H3 : len_ s + total_count calls <= capacity_ s)
    by (vm_compute; discriminate).
  assert (H4 : is_size_t (capacity_ s)) by (vm_compute; split; discriminate).
  split; [exact (conj H1 (conj H2 (conj H3 H4)))|].
  exact (appends_within_capacity calls s H1 H2 H3 H4).
Defined.

(** ** release after assign_copy *)

Lemma release_bytes fresh s :
  bytes (fst (release fresh s)) (len_ s) = bytes (data_ s) (len_ s).
Proof.
  unfold release. cbn [fst].
  destruct (is_inline s); [|reflexivity].
  apply bytes_ext. intros i Hi. rewrite memcpy_inside by lia. f_equal. lia.
Qed.

(** [assign_copy(src, len)] followed by [release()] hands back an array
    that starts with the [len] bytes of [src], from inline storage (a copy)
    and from heap storage (the array itself) alike, and leaves an empty
    buffer of capacity [kInitialCapacity]. *)
Theorem assign_copy_release fresh fresh' src len s :
  bytes (fst (release fresh' (assign_copy fresh src len s))) len =
  bytes src len /\
  ToString (snd (release fresh' (assign_copy fresh src len s))) = [] /\
  capacity_ (snd (release fresh' (assign_copy fresh src len s))) =
  kInitialCapacity.
Proof.
  split; [|split; reflexivity].
  pose proof (release_bytes fresh' (assign_copy fresh src len s)) as H.
  rewrite assign_copy_len in H. rewrite H.
  apply bytes_ext. intros i Hi. now apply assign_copy_data.
Qed.

(** ** AdvanceToSuccessor and the storage *)

Lemma AdvanceToSuccessor_loop_storage fresh : forall fuel done index s,
  index < len_ s -> index < INT_MAX -> len_ s <= capacity_ s ->
  capacity_ (snd (AdvanceToSuccessor_loop fuel fresh done index s)) =
  capacity_ s /\
  is_inline (snd (AdvanceToSuccessor_loop fuel fresh done index s)) =
  is_inline s /\
  len_ (snd (AdvanceToSuccessor_loop fuel fresh done index s)) <= len_ s.
Proof.
  induction fuel as [|fuel IH]; intros done index s Hidx Hmax Hcap.
  - simpl. repeat split. lia.
  - cbn [AdvanceToSuccessor_loop].
    destruct (negb done && (index >=? 0)) eqn:Hcond;
      [|simpl; repeat split; lia].
    apply andb_prop in Hcond as [_ Hge]. apply Z.geb_le in Hge.
    destruct (data_ s index =? 255).
    + apply IH; try assumption;
        rewrite to_int_small by (unfold INT_MAX in *; lia); lia.
    + rewrite AdvanceToSuccessor_loop_done. cbn [snd].
      rewrite to_int_small by (unfold INT_MAX in *; lia).
      rewrite to_size_t_small
        by (unfold is_size_t, SIZE_MAX, INT_MAX in *; lia).
      rewrite resize_within by (rewrite set_data__capacity; lia).
      rewrite set_len__capacity, set_len__is_inline, set_data__capacity,
        set_data__is_inline.
      cbn [set_len_ len_]. repeat split. lia.
Qed.

(** On a buffer of at most [INT_MAX] bytes within its capacity,
    [AdvanceToSuccessor()] never reallocates and never lengthens: the
    capacity and the storage are unchanged and the length does not
    grow. *)
Theorem AdvanceToSuccessor_keeps_storage fresh s :
  0 <= len_ s <= INT_MAX -> len_ s <= capacity_ s ->
  capacity_ (snd (AdvanceToSuccessor fresh s)) = capacity_ s /\
  is_inline (snd (AdvanceToSuccessor fresh s)) = is_inline s /\
  len_ (snd (AdvanceToSuccessor fresh s)) <= len_ s.
Proof.
  intros Hlen Hcap. rewrite AdvanceToSuccessor_snd.
  assert (Hidx : AdvanceToSuccessor_index s = len_ s - 1)
    by (apply AdvanceToSuccessor_index_small; lia).
  apply AdvanceToSuccessor_loop_storage; rewrite ?Hidx; lia.
Qed.

Lemma AdvanceToSuccessor_keeps_storage_witness :
  let s := of_bytes [97; 97; 98; 255; 255] in
  (0 <= len_ s <= INT_MAX /\ len_ s <= capacity_ s) /\
  (capacity_ (snd (AdvanceToSuccessor zeros s)) = capacity_ s /\
   is_inline (snd (AdvanceToSuccessor zeros s)) = is_inline s /\
   len_ (snd (AdvanceToSuccessor zeros s)) <= len_ s).
Proof.
  intros s.
  assert (H1 : 0 <= len_ s <= INT_MAX) by (vm_compute; split; discriminate).
  assert (H2 : len_ s <= capacity_ s) by (vm_compute; discriminate).
  split; [exact (conj H1 H2)|].
  exact (AdvanceToSuccessor_keeps_storage zeros s H1 H2).
Defined.

(** ** Termination of the loop of AdvanceToSuccessor *)

(** The [while] loop of [AdvanceToSuccessor()] ends on every buffer: after
    the [index + 1] evaluations of its condition that the function is given,
    the condition is false, and any number of further evaluations returns
    the same state. *)
Theorem AdvanceToSuccessor_terminates fresh s :
  (let '(done, index, _) :=
     AdvanceToSuccessor_loop (Z.to_nat (AdvanceToSuccessor_index s + 1))
       fresh false (AdvanceToSuccessor_index s) s in
   negb done && (index >=? 0) = false) /\
  (forall n,
     AdvanceToSuccessor_loop (Z.to_nat (AdvanceToSuccessor_index s + 1) + n)
       fresh false (AdvanceToSuccessor_index s) s =
     AdvanceToSuccessor_loop (Z.to_nat (AdvanceToSuccessor_index s + 1))
       fresh false (AdvanceToSuccessor_index s) s).
Proof.
  split; [apply AdvanceToSuccessor_exit|].
  induction n as [|n IH].
  - now rewrite Nat.add_0_r.
  - rewrite Nat.add_succ_r, AdvanceToSuccessor_loop_fuel; [exact IH| |lia].
    apply AdvanceToSuccessor_index_range.
Qed.

(** ** Construction *)

(** [faststring(capacity)] builds an empty buffer whose capacity is the
    larger of [capacity] and [kInitialCapacity]; up to [kInitialCapacity] it
    is the default-constructed buffer, above it the storage is on the
    heap. *)
Theorem faststring_with_capacity_spec init fresh c :
  len_ (faststring_with_capacity init fresh c) = 0 /\
  ToString (faststring_with_capacity init fresh c) = [] /\
  capacity_ (faststring_with_capacity init fresh c) =
  Z.max c kInitialCapacity /\
  (c <= kInitialCapacity ->
   faststring_with_capacity init fresh c = faststring_default init) /\
  (kInitialCapacity < c ->
   is_inline (faststring_with_capacity init fresh c) = false).
Proof.
  unfold faststring_with_capacity. cbn [capacity_].
  destruct (Z.gtb_spec c kInitialCapacity); cbn [len_ capacity_];
    repeat split; try reflexivity; try lia.
Qed.

Lemma faststring_with_capacity_spec_witness :
  (10 <= kInitialCapacity /\
   faststring_with_capacity zeros zeros 10 = faststring_default zeros) /\
  (kInitialCapacity < 100 /\
   is_inline (faststring_with_capacity zeros zeros 100) = false).
Proof.
  assert (H1 : 10 <= kInitialCapacity) by (vm_compute; discriminate).
  assert (H2 : kInitialCapacity < 100) by reflexivity.
  split.
  - split; [exact H1|].
    exact (proj1 (proj2 (proj2 (proj2
             (faststring_with_capacity_spec zeros zeros 10)))) H1).
  - split; [exact H2|].
    exact (proj2 (proj2 (proj2 (proj2
             (faststring_with_capacity_spec zeros zeros 100)))) H2).
Defined.

End FastString.
